(** * Gomoku engine: board, win detection, candidate moves, evaluation,
      alpha-beta search and move selection (src/Gomoku.py).

    The board is the Python list of lists of ints; coordinates and cell
    values are integers.  Every read [board[r][c]] of the source is guarded
    by [0 <= r < BOARD_DIMENSION] and [0 <= c < BOARD_DIMENSION], and every
    write happens at a coordinate that passed [CheckValidMove]; on a
    10 x 10 board (the only shape [Initialize_Board] creates and the
    in-place writes preserve) no index is ever out of range.  The theorems
    are stated for such boards ([wf_board]). *)

From Stdlib Require Import ZArith List Bool Lia Permutation.
Import ListNotations.
Open Scope Z_scope.

(** ** Constants (lines 7, 14-16) *)

Definition BOARD_DIMENSION : Z := 10.
Definition HUMAN : Z := 1.
Definition AI : Z := 2.
Definition SEQUENCE_LENGTH : Z := 5.

(** ** Board *)

Definition board := list (list Z).
Definition move := (Z * Z)%type.

(** [range lo hi] is Python's [range(lo, hi)]. *)
Definition range (lo hi : Z) : list Z :=
  map (fun i => lo + Z.of_nat i) (seq 0 (Z.to_nat (hi - lo))).

(** Line 31. *)
Definition Initialize_Board : board :=
  map (fun _ => map (fun _ => 0) (range 0 BOARD_DIMENSION))
      (range 0 BOARD_DIMENSION).

Definition wf_board (b : board) : Prop :=
  length b = Z.to_nat BOARD_DIMENSION /\
  Forall (fun row => length row = Z.to_nat BOARD_DIMENSION) b.

(** [0 <= x < BOARD_DIMENSION] *)
Definition in_range (x : Z) : bool := (0 <=? x) && (x <? BOARD_DIMENSION).

(** [board[r][c]], read only under the guard [in_range r && in_range c]. *)
Definition get (b : board) (r c : Z) : Z :=
  nth (Z.to_nat c) (nth (Z.to_nat r) b []) 0.

Fixpoint list_set {A} (l : list A) (i : nat) (x : A) : list A :=
  match l, i with
  | [], _ => []
  | _ :: t, O => x :: t
  | h :: t, S j => h :: list_set t j x
  end.

(** [board[r][c] = v], an in-place write, as the new board.  Only ever
    reached with a coordinate accepted by [CheckValidMove]. *)
Definition set_cell (b : board) (r c : Z) (v : Z) : board :=
  list_set b (Z.to_nat r) (list_set (nth (Z.to_nat r) b []) (Z.to_nat c) v).

(** Line 60. *)
Definition CheckValidMove (b : board) (row col : Z) : bool :=
  in_range row && in_range col && (get b row col =? 0).

(** Line 66. *)
Definition MakeMove (b : board) (row col player : Z) : board :=
  set_cell b row col player.

(** ** Win detection (lines 68-88) *)

Definition directions : list (Z * Z) := [(1, 0); (0, 1); (1, 1); (1, -1)].

(** The counting loop of lines 79-85 (and, verbatim, of [PatternCount],
    lines 118-125): [idxs] is what is left of [range(SEQUENCE_LENGTH)], and the
    [else: break] branch returns the count reached so far. *)
Fixpoint count_loop (b : board) (row col dr dc target : Z)
         (idxs : list Z) (count : Z) : Z :=
  match idxs with
  | [] => count
  | i :: rest =>
      let r := row + dr * i in
      let c := col + dc * i in
      if in_range r && in_range c && (get b r c =? target)
      then count_loop b row col dr dc target rest (count + 1)
      else count
  end.

Definition PatternCount (b : board) (row col dr dc target : Z) : Z :=
  count_loop b row col dr dc target (range 0 SEQUENCE_LENGTH) 0.

(** The nested loops return [True] at the first hit and [False] when they
    run out: an [existsb] at each level. *)
Definition WinnerCheck (b : board) (player : Z) : bool :=
  existsb (fun row =>
    existsb (fun col =>
      if negb (get b row col =? player) then false
      else existsb (fun d : Z * Z =>
             let (dr, dc) := d in
             PatternCount b row col dr dc player =? SEQUENCE_LENGTH)
           directions)
      (range 0 BOARD_DIMENSION))
    (range 0 BOARD_DIMENSION).

(** ** Evaluation (lines 105-136) *)

Definition opponent_of (player : Z) : Z :=
  if player =? AI then HUMAN else AI.

Definition Board_Evaluate (b : board) (player : Z) : Z :=
  let opponent := opponent_of player in
  fold_left (fun score row =>
    fold_left (fun score col =>
      fold_left (fun score (d : Z * Z) =>
        let (dr, dc) := d in
        if get b row col =? player
        then score + (PatternCount b row col dr dc player) ^ 2
        else if get b row col =? opponent
        then score - (PatternCount b row col dr dc opponent) ^ 2
        else score)
        directions score)
      (range 0 BOARD_DIMENSION) score)
    (range 0 BOARD_DIMENSION) 0.

(** ** Scores of the search: a Python int, or [math.inf] with either sign *)

Inductive score : Type :=
| NegInf : score
| Fin : Z -> score
| PosInf : score.

(** [x < y] *)
Definition sltb (x y : score) : bool :=
  match x, y with
  | NegInf, NegInf => false
  | NegInf, _ => true
  | Fin _, NegInf => false
  | Fin a, Fin b => a <? b
  | Fin _, PosInf => true
  | PosInf, _ => false
  end.

(** [x <= y] *)
Definition sleb (x y : score) : bool := negb (sltb y x).

(** [max(a, e)]: Python returns the first argument unless the second is
    strictly larger; [min(a, e)] likewise. *)
Definition smax (a e : score) : score := if sltb a e then e else a.
Definition smin (a e : score) : score := if sltb e a then e else a.

(** The order on scores, and their equality, as propositions. *)
Definition slt (x y : score) : Prop :=
  match x, y with
  | NegInf, NegInf => False
  | NegInf, _ => True
  | Fin _, NegInf => False
  | Fin a, Fin b => a < b
  | Fin _, PosInf => True
  | PosInf, _ => False
  end.

Definition sle (x y : score) : Prop :=
  match x, y with
  | NegInf, _ => True
  | Fin _, NegInf => False
  | Fin a, Fin b => a <= b
  | Fin _, PosInf => True
  | PosInf, PosInf => True
  | PosInf, _ => False
  end.

Definition seq_score (x y : score) : Prop :=
  match x, y with
  | NegInf, NegInf => True
  | Fin a, Fin b => a = b
  | PosInf, PosInf => True
  | _, _ => False
  end.

(** ** Runs, as the specification speaks of them *)

(** [k] cells from [(r, c)] in steps of [(dr, dc)], every one of them on the
    board and holding [p]. *)
Definition run_at (b : board) (p r c dr dc : Z) (k : nat) : Prop :=
  forall i : nat, (i < k)%nat ->
    in_range (r + dr * Z.of_nat i) = true /\
    in_range (c + dc * Z.of_nat i) = true /\
    get b (r + dr * Z.of_nat i) (c + dc * Z.of_nat i) = p.

(** The unit steps along the four lines through a cell, as (row step,
    column step): along the row to the right and to the left, along the
    column down and up, along the diagonal down-right and up-left, along
    the other diagonal down-left and up-right. *)
Definition axis_steps : list (Z * Z) :=
  [(0, 1); (0, -1);
   (1, 0); (-1, 0);
   (1, 1); (-1, -1);
   (1, -1); (-1, 1)].

(** Some horizontal, vertical or diagonal run of at least five cells of
    [p]. *)
Definition has_run (b : board) (p : Z) : Prop :=
  exists r c dr dc k,
    In (dr, dc) axis_steps /\ (5 <= k)%nat /\ run_at b p r c dr dc k.

(** The number of consecutive cells holding [p] from [(r, c)] on, in steps
    of [(dr, dc)], looking at [fuel] cells at most. *)
Fixpoint run_from (fuel : nat) (b : board) (p r c dr dc : Z) : Z :=
  match fuel with
  | O => 0
  | S f =>
      if in_range r && in_range c && (get b r c =? p)
      then 1 + run_from f b p (r + dr) (c + dc) dr dc
      else 0
  end.

(** The forward run length: no run on the board is longer than the board is
    wide, so [BOARD_DIMENSION] cells are all there is to look at. *)
Definition forward_run (b : board) (p r c dr dc : Z) : Z :=
  run_from (Z.to_nat BOARD_DIMENSION) b p r c dr dc.

Definition zsum {A} (f : A -> Z) (l : list A) : Z :=
  fold_right (fun x acc => f x + acc) 0 l.

(** The sum over every cell and each direction of [f row col dr dc]. *)
Definition sum_cells_dirs (f : Z -> Z -> Z -> Z -> Z) : Z :=
  zsum (fun row =>
    zsum (fun col =>
      zsum (fun d : Z * Z => f row col (fst d) (snd d)) directions)
      (range 0 BOARD_DIMENSION))
    (range 0 BOARD_DIMENSION).

(** Chebyshev distance at most [radius]. *)
Definition near (radius : Z) (r c nr nc : Z) : Prop :=
  Z.abs (nr - r) <= radius /\ Z.abs (nc - c) <= radius.

(** ** Sample positions *)

(** The board after the forced opening of line 220. *)
Definition opened_board : board :=
  MakeMove Initialize_Board 5 5 AI.

(** Six engine stones in a row along the top edge. *)
Definition six_in_a_row : board :=
  fold_left (fun b col => MakeMove b 0 col AI) (range 0 6) Initialize_Board.

(** Five in a line along a column, along the diagonal and along the other
    diagonal. *)
Definition five_in_a_column : board :=
  fold_left (fun b row => MakeMove b row 3 AI) (range 2 7) Initialize_Board.

Definition five_on_the_diagonal : board :=
  fold_left (fun b i => MakeMove b i i HUMAN) (range 1 6) Initialize_Board.

Definition five_on_the_other_diagonal : board :=
  fold_left (fun b i => MakeMove b (1 + i) (8 - i) HUMAN) (range 0 5)
            Initialize_Board.

(** Four engine stones in a row, both ends open, and three human stones. *)
Definition engine_four : board :=
  fold_left (fun b (m : Z * Z * Z) =>
               let '(row, col, player) := m in MakeMove b row col player)
            [(5, 3, AI); (4, 3, HUMAN); (5, 4, AI); (4, 4, HUMAN);
             (5, 5, AI); (4, 5, HUMAN); (5, 6, AI)]
            Initialize_Board.

(** Four human stones in a row and no win in one for the engine. *)
Definition human_four : board :=
  fold_left (fun b (m : Z * Z * Z) =>
               let '(row, col, player) := m in MakeMove b row col player)
            [(5, 5, AI); (2, 2, HUMAN); (7, 7, AI); (2, 3, HUMAN);
             (8, 2, AI); (2, 4, HUMAN); (2, 1, AI); (2, 5, HUMAN)]
            Initialize_Board.

(** A full board with no run longer than two: a drawn game. *)
Definition drawn_board : board :=
  map (fun row =>
         map (fun col => if (col + 2 * row) mod 4 <? 2 then HUMAN else AI)
             (range 0 BOARD_DIMENSION))
      (range 0 BOARD_DIMENSION).

(** One enumeration of the candidate set: in order of insertion. *)
Definition insertion_order (s : list (Z * Z)) : list (Z * Z) := s.

(** ** The candidate set

    [moves] of [ValidMoveFinder] is a Python set of pairs.  It is kept here
    as the list of its members in order of first insertion; [set_add] is
    [moves.add].  The order in which [list(moves)] enumerates the set is the
    interpreter's: it is a parameter, [list_of_set], of which only
    [list_of_set s] being a rearrangement of [s] is assumed. *)

Definition move_eqb (m n : move) : bool :=
  (fst m =? fst n) && (snd m =? snd n).

Fixpoint set_add (m : move) (s : list move) : list move :=
  match s with
  | [] => [m]
  | x :: t => if move_eqb m x then s else x :: set_add m t
  end.

Section Engine.

Variable list_of_set : list move -> list move.
Hypothesis list_of_set_perm : forall s, Permutation (list_of_set s) s.

(** Lines 94-102: the set after the four nested loops. *)
Definition candidate_set (b : board) (radius : Z) : list move :=
  fold_left (fun moves row =>
    fold_left (fun moves col =>
      if negb (get b row col =? 0)
      then
        fold_left (fun moves dr =>
          fold_left (fun moves dc =>
            let nr := row + dr in
            let nc := col + dc in
            if CheckValidMove b nr nc then set_add (nr, nc) moves else moves)
            (range (- radius) (radius + 1)) moves)
          (range (- radius) (radius + 1)) moves
      else moves)
      (range 0 BOARD_DIMENSION) moves)
    (range 0 BOARD_DIMENSION) [].

(** Lines 90-103. *)
Definition ValidMoveFinder (b : board) (radius : Z) : list move :=
  list_of_set (candidate_set b radius).

(** ** Search (lines 138-177)

    The board is mutated in place and shared by all recursive calls, so the
    search threads it: the result is the board as the call leaves it, the
    best move and the score.  [depth] is the number of plies left: the one
    caller passes 2 and every recursive call passes [depth - 1] until the
    test [depth == 0] holds. *)

Definition result : Type := (board * option move * score)%type.

(** The loop of lines 153-162 over what is left of [valid_moves];
    [child b alpha beta] is the recursive call of line 155. *)
Fixpoint max_loop (child : board -> score -> score -> board * score)
         (moves : list move) (b : board) (alpha beta : score)
         (max_eval : score) (best_move : option move) : result :=
  match moves with
  | [] => (b, best_move, max_eval)
  | (row, col) :: rest =>
      let b1 := set_cell b row col AI in
      let (b2, eval) := child b1 alpha beta in
      let b3 := set_cell b2 row col 0 in
      let max_eval' := if sltb max_eval eval then eval else max_eval in
      let best_move' :=
        if sltb max_eval eval then Some (row, col) else best_move in
      let alpha' := smax alpha eval in
      if sleb beta alpha' then (b3, best_move', max_eval')
      else max_loop child rest b3 alpha' beta max_eval' best_move'
  end.

(** The loop of lines 167-176. *)
Fixpoint min_loop (child : board -> score -> score -> board * score)
         (moves : list move) (b : board) (alpha beta : score)
         (min_eval : score) (best_move : option move) : result :=
  match moves with
  | [] => (b, best_move, min_eval)
  | (row, col) :: rest =>
      let b1 := set_cell b row col HUMAN in
      let (b2, eval) := child b1 alpha beta in
      let b3 := set_cell b2 row col 0 in
      let min_eval' := if sltb eval min_eval then eval else min_eval in
      let best_move' :=
        if sltb eval min_eval then Some (row, col) else best_move in
      let beta' := smin beta eval in
      if sleb beta' alpha then (b3, best_move', min_eval')
      else min_loop child rest b3 alpha beta' min_eval' best_move'
  end.

Fixpoint MiniMax (depth : nat) (b : board) (alpha beta : score)
         (maximizing_player : bool) : result :=
  match depth with
  | O => (b, None, Fin (Board_Evaluate b AI))
  | S depth' =>
      if WinnerCheck b HUMAN || WinnerCheck b AI
      then (b, None, Fin (Board_Evaluate b AI))
      else
        let valid_moves := ValidMoveFinder b 2 in
        if maximizing_player
        then max_loop (fun b' a' be' =>
                         let '(b'', _, eval) := MiniMax depth' b' a' be' false
                         in (b'', eval))
                      valid_moves b alpha beta NegInf None
        else min_loop (fun b' a' be' =>
                         let '(b'', _, eval) := MiniMax depth' b' a' be' true
                         in (b'', eval))
                      valid_moves b alpha beta PosInf None
  end.

(** ** Move selection (lines 179-207) *)

(** Lines 202-206, the body of the loop of [CriticalMoveFinder]: place,
    check, and clear the cell on either outcome. *)
Definition wouldWin (b : board) (row col player : Z) : board * bool :=
  let b1 := set_cell b row col player in
  let won := WinnerCheck b1 player in
  (set_cell b1 row col 0, won).

Fixpoint critical_loop (moves : list move) (b : board) (player : Z)
  : board * option move :=
  match moves with
  | [] => (b, None)
  | (row, col) :: rest =>
      let (b', won) := wouldWin b row col player in
      if won then (b', Some (row, col))
      else critical_loop rest b' player
  end.

Definition CriticalMoveFinder (b : board) (player : Z) : board * option move :=
  critical_loop (ValidMoveFinder b 2) b player.

(** Lines 179-195, with the call of line 194 as [search].  A pair
    [(row, col)] is always truthy, so [if critical_move:] tests for
    [None]. *)
Definition AI_move_with (search : board -> result) (b : board)
  : board * option move :=
  let (b1, critical_move) := CriticalMoveFinder b AI in
  match critical_move with
  | Some m => (b1, Some m)
  | None =>
      let (b2, critical_threat) := CriticalMoveFinder b1 HUMAN in
      match critical_threat with
      | Some m => (b2, Some m)
      | None => let '(b3, mv, _) := search b2 in (b3, mv)
      end
  end.

Definition AI_move (b : board) : board * option move :=
  AI_move_with (fun b' => MiniMax 2 b' NegInf PosInf true) b.

(** ** The human's move (lines 235-236): the board afterwards and whether
    the move was accepted. *)
Definition applyHumanMove (b : board) (row col : Z) : board * bool :=
  if CheckValidMove b row col
  then (MakeMove b row col HUMAN, true)
  else (b, false).

(** ** Exhaustive minimax, as the specification speaks of it

    The same move set, the same marks and the same rule that the first
    strictly better score keeps the move; no window and no cut.  The board is
    a value here, each child gets its own. *)

Fixpoint plain_max (child : board -> score) (moves : list move) (b : board)
         (best : score) (best_move : option move) : option move * score :=
  match moves with
  | [] => (best_move, best)
  | (row, col) :: rest =>
      let v := child (set_cell b row col AI) in
      if sltb best v
      then plain_max child rest b v (Some (row, col))
      else plain_max child rest b best best_move
  end.

Fixpoint plain_min (child : board -> score) (moves : list move) (b : board)
         (best : score) (best_move : option move) : option move * score :=
  match moves with
  | [] => (best_move, best)
  | (row, col) :: rest =>
      let v := child (set_cell b row col HUMAN) in
      if sltb v best
      then plain_min child rest b v (Some (row, col))
      else plain_min child rest b best best_move
  end.

Fixpoint Exhaustive (depth : nat) (b : board) (maximizing : bool)
  : option move * score :=
  match depth with
  | O => (None, Fin (Board_Evaluate b AI))
  | S depth' =>
      if WinnerCheck b HUMAN || WinnerCheck b AI
      then (None, Fin (Board_Evaluate b AI))
      else
        let moves := ValidMoveFinder b 2 in
        if maximizing
        then plain_max (fun b' => snd (Exhaustive depth' b' false))
                       moves b NegInf None
        else plain_min (fun b' => snd (Exhaustive depth' b' true))
                       moves b PosInf None
  end.

(** ** What a windowed result says of the exact value

    [window_ok alpha beta v r]: [r] is the answer of a search with window
    [(alpha, beta)] at a node whose exhaustive value is [v].  Inside the
    window it is the value; outside it is on the same side. *)
Definition window_ok (alpha beta v r : score) : Prop :=
  (sle v alpha -> sle r alpha) /\
  (slt alpha v -> slt v beta -> seq_score r v) /\
  (sle beta v -> sle beta r).

(** The maximizing loop after some moves: [M] is the exhaustive best so far,
    [alpha] and [max_eval] are the loop's variables, [alpha0] the bound the
    loop was entered with. *)
Definition max_state (alpha0 M alpha max_eval : score) : Prop :=
  sle alpha0 alpha /\ sle M alpha /\
  (seq_score alpha alpha0 \/ seq_score alpha M) /\
  (slt alpha0 M -> seq_score max_eval M) /\
  (sle M alpha0 -> sle max_eval alpha0).

(** The minimizing loop, likewise. *)
Definition min_state (beta0 M beta min_eval : score) : Prop :=
  sle beta beta0 /\ sle beta M /\
  (seq_score beta beta0 \/ seq_score beta M) /\
  (slt M beta0 -> seq_score min_eval M) /\
  (sle beta0 M -> sle beta0 min_eval).

(** What one cell and one direction add to the score (lines 130-135). *)
Definition contribution (b : board) (player row col dr dc : Z) : Z :=
  if get b row col =? player
  then (PatternCount b row col dr dc player) ^ 2
  else if get b row col =? opponent_of player
  then - (PatternCount b row col dr dc (opponent_of player)) ^ 2
  else 0.

(** ** The window and the pieces (lines 6, 8-10, 45-54) *)

Definition WINDOW_DIMENSION : Z := 600.
Definition CELL_DIMENSION : Z := WINDOW_DIMENSION / BOARD_DIMENSION.
Definition BLACK : Z * Z * Z := (0, 0, 0).
Definition WHITE : Z * Z * Z := (255, 255, 255).

(** What [pygame.draw.circle] is asked to draw. *)
Record circle : Type := {
  circle_color : Z * Z * Z;
  circle_x : Z;
  circle_y : Z;
  circle_radius : Z
}.

(** Lines 49-54. *)
Definition PlayerPiece (row col : Z) (color : Z * Z * Z) : circle :=
  {| circle_color := color;
     circle_x := col * CELL_DIMENSION + CELL_DIMENSION / 2;
     circle_y := row * CELL_DIMENSION + CELL_DIMENSION / 2;
     circle_radius := CELL_DIMENSION / 2 - 2 |}.

(** Line 234: the cell under the pixel [(x, y)]. *)
Definition cell_of_pixel (x y : Z) : Z * Z :=
  (y / CELL_DIMENSION, x / CELL_DIMENSION).

(** Lines 254-259: the pieces drawn in one frame, in drawing order. *)
Definition render_pieces (b : board) : list circle :=
  flat_map (fun row =>
    flat_map (fun col =>
      if get b row col =? HUMAN then [PlayerPiece row col BLACK]
      else if get b row col =? AI then [PlayerPiece row col WHITE]
      else [])
      (range 0 BOARD_DIMENSION))
    (range 0 BOARD_DIMENSION).

(** ** The game loop (lines 209-250)

    The state of [main] between two frames, the events of a frame, and one
    turn of the [while True] loop.  [MOUSEBUTTONDOWN x y] carries what
    [pygame.mouse.get_pos()] answers when the event is handled; leaving
    through [sys.exit()] is [None]. *)

Record game : Type := {
  game_board : board;
  game_over : bool;
  turn : Z
}.

Inductive event : Type :=
| QUIT : event
| MOUSEBUTTONDOWN : Z -> Z -> event
| OTHER_EVENT : event.

(** Lines 214-221. *)
Definition new_game : game :=
  let center := BOARD_DIMENSION / 2 in
  {| game_board := MakeMove Initialize_Board center center AI;
     game_over := false;
     turn := HUMAN |}.

(** Lines 227-240, for one event. *)
Definition handle_event (g : game) (e : event) : option game :=
  match e with
  | QUIT => None
  | MOUSEBUTTONDOWN x y =>
      if negb (game_over g) && (turn g =? HUMAN)
      then
        let (row, col) := cell_of_pixel x y in
        if CheckValidMove (game_board g) row col
        then
          let b := MakeMove (game_board g) row col HUMAN in
          Some {| game_board := b;
                  game_over := if WinnerCheck b HUMAN then true
                               else game_over g;
                  turn := AI |}
        else Some g
      else Some g
  | OTHER_EVENT => Some g
  end.

(** Line 226: the events of the frame, in order. *)
Fixpoint handle_events (g : game) (events : list event) : option game :=
  match events with
  | [] => Some g
  | e :: rest =>
      match handle_event g e with
      | None => None
      | Some g' => handle_events g' rest
      end
  end.

(** Lines 243-250. *)
Definition ai_turn (g : game) : game :=
  if (turn g =? AI) && negb (game_over g)
  then
    let (b, mv) := AI_move (game_board g) in
    match mv with
    | Some (row, col) =>
        let b' := MakeMove b row col AI in
        {| game_board := b';
           game_over := if WinnerCheck b' AI then true else game_over g;
           turn := HUMAN |}
    | None => {| game_board := b; game_over := game_over g; turn := turn g |}
    end
  else g.

(** One turn of the loop: the events, then the engine. *)
Definition frame (g : game) (events : list event) : option game :=
  match handle_events g events with
  | None => None
  | Some g' => Some (ai_turn g')
  end.

(** The states the loop can be in at the start of a frame. *)
Inductive reachable : game -> Prop :=
| reachable_new : reachable new_game
| reachable_frame g events g' :
    reachable g -> frame g events = Some g' -> reachable g'.

(** What holds of the state between any two steps of a game: the board is
    10 x 10 and holds only the three cell values, the opening stone is in
    place, the flag [game_over] says whether there is five in a row, at
    most one side has five, and when the game is over the winner is the
    side that moved last. *)
Definition game_invariant (g : game) : Prop :=
  wf_board (game_board g) /\
  (forall r c, in_range r = true -> in_range c = true ->
               get (game_board g) r c = 0 \/
               get (game_board g) r c = HUMAN \/
               get (game_board g) r c = AI) /\
  get (game_board g) 5 5 = AI /\
  (turn g = HUMAN \/ turn g = AI) /\
  game_over g =
    WinnerCheck (game_board g) HUMAN || WinnerCheck (game_board g) AI /\
  WinnerCheck (game_board g) HUMAN && WinnerCheck (game_board g) AI = false /\
  (game_over g = true ->
   WinnerCheck (game_board g) (if turn g =? AI then HUMAN else AI) = true).

(** ** Sample games *)

(** A finished game: the engine has its run on the top edge. *)
Definition won_game : game :=
  {| game_board := six_in_a_row; game_over := true; turn := HUMAN |}.

(** A running game on board [b] with the engine to move. *)
Definition engine_to_move (b : board) : game :=
  {| game_board := b; game_over := false; turn := AI |}.

(** The events of a frame with two clicks, the first on cell (1, 3). *)
Definition two_clicks : list event :=
  [OTHER_EVENT; MOUSEBUTTONDOWN 200 100; MOUSEBUTTONDOWN 300 300].

(** * Proofs *)

(** ** Ranges and indices *)

Lemma In_range (x lo hi : Z) : In x (range lo hi) <-> lo <= x < hi.
Proof.
  unfold range. rewrite in_map_iff. split.
  - intros [i [<- Hi]]. apply in_seq in Hi. lia.
  - intros H. exists (Z.to_nat (x - lo)). split; [lia|].
    apply in_seq. lia.
Qed.

Lemma in_range_true (x : Z) : in_range x = true <-> 0 <= x < BOARD_DIMENSION.
Proof. unfold in_range. rewrite andb_true_iff, Z.leb_le, Z.ltb_lt. tauto. Qed.

Lemma in_range_In (x : Z) :
  in_range x = true <-> In x (range 0 BOARD_DIMENSION).
Proof. rewrite in_range_true, In_range. tauto. Qed.

Lemma range_cons (lo : Z) (n : nat) :
  map (fun i => lo + Z.of_nat i) (seq 0 (S n)) =
  lo :: map (fun i => (lo + 1) + Z.of_nat i) (seq 0 n).
Proof.
  simpl. f_equal; [lia|].
  rewrite <- seq_shift, map_map. apply map_ext. intros. lia.
Qed.

(** ** Reading and writing cells *)

Lemma length_list_set {A} (l : list A) i x : length (list_set l i x) = length l.
Proof. revert i; induction l; destruct i; simpl; auto. Qed.

Lemma nth_list_set_same {A} (l : list A) i x d :
  (i < length l)%nat -> nth i (list_set l i x) d = x.
Proof.
  revert i; induction l; destruct i; simpl; intros; try lia; auto.
  apply IHl; lia.
Qed.

Lemma nth_list_set_other {A} (l : list A) i j x d :
  i <> j -> nth j (list_set l i x) d = nth j l d.
Proof.
  revert i j; induction l; destruct i, j; simpl; intros; try congruence; auto.
Qed.

Lemma list_set_twice {A} (l : list A) i x y :
  list_set (list_set l i x) i y = list_set l i y.
Proof. revert i; induction l; destruct i; simpl; auto. now rewrite IHl. Qed.

Lemma list_set_nth {A} (l : list A) i d :
  (i < length l)%nat -> list_set l i (nth i l d) = l.
Proof.
  revert i; induction l; destruct i; simpl; intros; try lia; auto.
  rewrite IHl; auto; lia.
Qed.

Lemma wf_row (b : board) (r : Z) :
  wf_board b -> in_range r = true ->
  length (nth (Z.to_nat r) b []) = Z.to_nat BOARD_DIMENSION.
Proof.
  intros [Hl Hr] Hin. apply in_range_true in Hin.
  rewrite Forall_forall in Hr. apply Hr, nth_In. lia.
Qed.

Lemma wf_set_cell (b : board) r c v : wf_board b -> wf_board (set_cell b r c v).
Proof.
  intros [Hl Hr]. unfold set_cell. split.
  - now rewrite length_list_set.
  - rewrite Forall_forall in *. intros row Hin.
    destruct (In_nth _ _ [] Hin) as [j [Hj Hnth]].
    rewrite length_list_set in Hj.
    destruct (Nat.eq_dec (Z.to_nat r) j) as [Heq|Hne].
    + subst j. rewrite nth_list_set_same in Hnth by auto. subst row.
      rewrite length_list_set. apply Hr, nth_In; auto.
    + rewrite nth_list_set_other in Hnth by auto. subst row.
      apply Hr, nth_In; auto.
Qed.

Lemma get_set_same (b : board) r c v :
  wf_board b -> in_range r = true -> in_range c = true ->
  get (set_cell b r c v) r c = v.
Proof.
  intros Hwf Hr Hc. pose proof (wf_row b r Hwf Hr) as Hrow.
  destruct Hwf as [Hl _]. apply in_range_true in Hr, Hc.
  unfold get, set_cell.
  rewrite nth_list_set_same by lia. apply nth_list_set_same. lia.
Qed.

Lemma get_set_other (b : board) r c v r' c' :
  0 <= r -> 0 <= c -> 0 <= r' -> 0 <= c' -> (r', c') <> (r, c) ->
  get (set_cell b r c v) r' c' = get b r' c'.
Proof.
  intros Hr Hc Hr' Hc' Hne. unfold get, set_cell.
  destruct (Z.eq_dec r r') as [->|Hrr].
  - assert (c <> c') by congruence.
    destruct (Nat.lt_ge_cases (Z.to_nat r') (length b)) as [Hlt|Hge].
    + rewrite nth_list_set_same by auto.
      apply nth_list_set_other. lia.
    + rewrite (nth_overflow (list_set _ _ _)) by (rewrite length_list_set; lia).
      now rewrite (nth_overflow b) by lia.
  - rewrite nth_list_set_other by lia. reflexivity.
Qed.

(** Clearing the cell a mark was put on gives back a board on which the
    cell was empty. *)
Lemma set_cell_restore (b : board) r c v :
  wf_board b -> CheckValidMove b r c = true ->
  set_cell (set_cell b r c v) r c 0 = b.
Proof.
  intros Hwf Hv. unfold CheckValidMove in Hv.
  apply andb_true_iff in Hv as [Hv Hz]. apply andb_true_iff in Hv as [Hr Hc].
  apply Z.eqb_eq in Hz.
  pose proof (wf_row b r Hwf Hr) as Hrow. destruct Hwf as [Hl _].
  apply in_range_true in Hr, Hc. unfold set_cell.
  rewrite nth_list_set_same by lia.
  rewrite !list_set_twice.
  unfold get in Hz. rewrite <- Hz at 1.
  rewrite list_set_nth by lia. apply list_set_nth. lia.
Qed.

(** ** Sums *)

Lemma fold_left_zsum {A} (step : Z -> A -> Z) (g : A -> Z) (l : list A) :
  (forall acc x, In x l -> step acc x = acc + g x) ->
  forall acc, fold_left step l acc = acc + zsum g l.
Proof.
  induction l as [|x l IH]; intros Hstep acc; simpl.
  - lia.
  - rewrite IH by (intros; apply Hstep; now right).
    rewrite Hstep by now left. lia.
Qed.

Lemma zsum_ext {A} (f g : A -> Z) (l : list A) :
  (forall x, In x l -> f x = g x) -> zsum f l = zsum g l.
Proof.
  induction l as [|x l IH]; intros H; simpl; auto.
  rewrite H by now left. rewrite IH; auto. intros; apply H; now right.
Qed.

Lemma zsum_opp {A} (f : A -> Z) (l : list A) :
  zsum (fun x => - f x) l = - zsum f l.
Proof. induction l; simpl; lia. Qed.

Lemma sum_cells_dirs_ext (f g : Z -> Z -> Z -> Z -> Z) :
  (forall row col dr dc,
      in_range row = true -> in_range col = true -> In (dr, dc) directions ->
      f row col dr dc = g row col dr dc) ->
  sum_cells_dirs f = sum_cells_dirs g.
Proof.
  intros H. unfold sum_cells_dirs.
  apply zsum_ext; intros row Hrow. apply zsum_ext; intros col Hcol.
  apply zsum_ext; intros [dr dc] Hd. apply H; auto; now apply in_range_In.
Qed.

Lemma sum_cells_dirs_opp (f : Z -> Z -> Z -> Z -> Z) :
  sum_cells_dirs (fun row col dr dc => - f row col dr dc) = - sum_cells_dirs f.
Proof.
  unfold sum_cells_dirs. rewrite <- zsum_opp.
  apply zsum_ext; intros row _. rewrite <- zsum_opp.
  apply zsum_ext; intros col _. now rewrite <- zsum_opp.
Qed.

(** ** Evaluation *)

Lemma Board_Evaluate_sum (b : board) (player : Z) :
  Board_Evaluate b player = sum_cells_dirs (contribution b player).
Proof.
  unfold Board_Evaluate, sum_cells_dirs.
  rewrite fold_left_zsum with
    (g := fun row => zsum (fun col => zsum (fun d : Z * Z =>
            contribution b player row col (fst d) (snd d)) directions)
            (range 0 BOARD_DIMENSION)); [lia|].
  intros acc row _.
  apply fold_left_zsum with
    (g := fun col => zsum (fun d : Z * Z =>
            contribution b player row col (fst d) (snd d)) directions).
  intros acc' col _.
  apply fold_left_zsum. intros acc'' [dr dc] _. unfold contribution. simpl.
  destruct (get b row col =? player); [lia|].
  destruct (get b row col =? opponent_of player); lia.
Qed.

(** The counting loop is the run length over the cells it is given. *)
Lemma count_loop_run_from (b : board) (row col dr dc target : Z) (n : nat) :
  forall k count,
    count_loop b row col dr dc target
               (map (fun i => k + Z.of_nat i) (seq 0 n)) count =
    count + run_from n b target (row + dr * k) (col + dc * k) dr dc.
Proof.
  induction n as [|n IH]; intros k count.
  - simpl. lia.
  - rewrite range_cons. cbn [count_loop run_from].
    destruct (in_range (row + dr * k) && in_range (col + dc * k)
              && (get b (row + dr * k) (col + dc * k) =? target)); [|lia].
    rewrite IH.
    replace (row + dr * (k + 1)) with (row + dr * k + dr) by lia.
    replace (col + dc * (k + 1)) with (col + dc * k + dc) by lia. lia.
Qed.

Lemma PatternCount_run_from (b : board) (row col dr dc target : Z) :
  PatternCount b row col dr dc target =
  run_from (Z.to_nat SEQUENCE_LENGTH) b target row col dr dc.
Proof.
  unfold PatternCount, range.
  rewrite count_loop_run_from, !Z.mul_0_r, !Z.add_0_r. reflexivity.
Qed.

Lemma run_from_S (f : nat) (b : board) (p r c dr dc : Z) :
  run_from (S f) b p r c dr dc =
  if in_range r && in_range c && (get b r c =? p)
  then 1 + run_from f b p (r + dr) (c + dc) dr dc else 0.
Proof. reflexivity. Qed.

Lemma run_from_nonneg (f : nat) (b : board) (p dr dc : Z) :
  forall r c, 0 <= run_from f b p r c dr dc.
Proof.
  induction f as [|f IH]; intros r c; cbn [run_from].
  - lia.
  - destruct (in_range r && in_range c && (get b r c =? p)); [|lia].
    specialize (IH (r + dr) (c + dc)). lia.
Qed.

Lemma run_from_min (n m : nat) (b : board) (p dr dc : Z) :
  forall r c,
    run_from n b p r c dr dc =
    Z.min (Z.of_nat n) (run_from (n + m) b p r c dr dc).
Proof.
  induction n as [|n IH]; intros r c.
  - cbn [run_from Nat.add].
    pose proof (run_from_nonneg m b p dr dc r c). lia.
  - cbn [run_from Nat.add].
    destruct (in_range r && in_range c && (get b r c =? p)); [|lia].
    rewrite IH. lia.
Qed.

(** [PatternCount] looks at five cells: it is the forward run length, cut
    off at five. *)
Lemma PatternCount_forward_run (b : board) (row col dr dc target : Z) :
  PatternCount b row col dr dc target =
  Z.min SEQUENCE_LENGTH (forward_run b target row col dr dc).
Proof.
  rewrite PatternCount_run_from.
  rewrite (run_from_min (Z.to_nat SEQUENCE_LENGTH) 5). reflexivity.
Qed.

Lemma run_from_not_owned (n : nat) (b : board) (p r c dr dc : Z) :
  get b r c <> p -> run_from n b p r c dr dc = 0.
Proof.
  intros H. destruct n; simpl; auto.
  apply Z.eqb_neq in H. rewrite H. now rewrite andb_false_r.
Qed.

(** On a board, looking further than [BOARD_DIMENSION] cells finds nothing
    more: [forward_run] is the whole run. *)
Lemma run_from_past_edge (e : nat) (b : board) (p dr dc : Z) :
  In (dr, dc) directions ->
  forall f r c,
    (if dr =? 1 then BOARD_DIMENSION - r else BOARD_DIMENSION - c)
      <= Z.of_nat f ->
    run_from (f + e) b p r c dr dc = run_from f b p r c dr dc.
Proof.
  intros Hd. assert (Hcases : dr = 1 \/ (dr = 0 /\ dc = 1)).
  { simpl in Hd. intuition congruence. }
  induction f as [|f IH]; intros r c H.
  - cbn [Nat.add run_from]. destruct e; [reflexivity|].
    rewrite run_from_S.
    destruct (in_range r && in_range c && (get b r c =? p)) eqn:E; [|lia].
    apply andb_true_iff in E as [E _]. apply andb_true_iff in E as [Hr Hc].
    apply in_range_true in Hr, Hc.
    destruct Hcases as [->|[-> ->]]; cbn [Z.eqb Pos.eqb] in *; lia.
  - cbn [Nat.add]. rewrite !run_from_S.
    destruct (in_range r && in_range c && (get b r c =? p)); [|lia].
    rewrite IH; [reflexivity|].
    destruct Hcases as [->|[-> ->]]; cbn [Z.eqb Pos.eqb] in *; lia.
Qed.

Lemma forward_run_whole (b : board) (p r c dr dc : Z) (extra : nat) :
  In (dr, dc) directions -> in_range r = true -> in_range c = true ->
  run_from (Z.to_nat BOARD_DIMENSION + extra) b p r c dr dc =
  forward_run b p r c dr dc.
Proof.
  intros Hd Hr Hc. unfold forward_run. apply run_from_past_edge; auto.
  apply in_range_true in Hr, Hc. destruct (dr =? 1); lia.
Qed.

Lemma PatternCount_not_owned (b : board) (row col dr dc target : Z) :
  get b row col <> target -> PatternCount b row col dr dc target = 0.
Proof.
  intros H. rewrite PatternCount_run_from. now apply run_from_not_owned.
Qed.

Lemma opponent_of_side (side : Z) :
  side = HUMAN \/ side = AI -> opponent_of side <> side.
Proof. intros [->| ->]; discriminate. Qed.

(** C8 (as amended): the score is the sum, over every cell and each of the
    four directions, of the square of the side's forward run length from
    that cell minus the square of the opponent's, each run length counted
    up to [SEQUENCE_LENGTH] cells and no further. *)
Theorem Board_Evaluate_capped_runs (b : board) (side : Z) :
  wf_board b ->
  side = HUMAN \/ side = AI ->
  Board_Evaluate b side =
  sum_cells_dirs (fun row col dr dc =>
    (Z.min SEQUENCE_LENGTH (forward_run b side row col dr dc)) ^ 2
    - (Z.min SEQUENCE_LENGTH
             (forward_run b (opponent_of side) row col dr dc)) ^ 2).
Proof.
  intros _ Hside. rewrite Board_Evaluate_sum.
  apply sum_cells_dirs_ext. intros row col dr dc _ _ _.
  rewrite <- !PatternCount_forward_run. unfold contribution.
  pose proof (opponent_of_side side Hside) as Hopp.
  destruct (get b row col =? side) eqn:E1.
  - apply Z.eqb_eq in E1.
    rewrite (PatternCount_not_owned b row col dr dc (opponent_of side))
      by congruence.
    lia.
  - apply Z.eqb_neq in E1.
    rewrite (PatternCount_not_owned b row col dr dc side) by assumption.
    destruct (get b row col =? opponent_of side) eqn:E2.
    + lia.
    + apply Z.eqb_neq in E2.
      rewrite (PatternCount_not_owned b row col dr dc (opponent_of side))
        by assumption.
      lia.
Qed.

(** C10: the score computed for the engine is the negation of the score
    computed for the human. *)
Theorem Board_Evaluate_antisymmetric (b : board) :
  wf_board b -> Board_Evaluate b AI = - Board_Evaluate b HUMAN.
Proof.
  intros _. rewrite !Board_Evaluate_sum, <- sum_cells_dirs_opp.
  apply sum_cells_dirs_ext. intros row col dr dc _ _ _.
  unfold contribution.
  change (opponent_of AI) with HUMAN. change (opponent_of HUMAN) with AI.
  destruct (get b row col =? AI) eqn:E1, (get b row col =? HUMAN) eqn:E2;
    try lia.
  apply Z.eqb_eq in E1, E2. rewrite E1 in E2. discriminate.
Qed.

(** ** The human's move *)

(** C9: a target off the board, or on an occupied cell, is not accepted and
    the board is what it was. *)
Theorem applyHumanMove_rejects (b : board) (row col : Z) :
  wf_board b ->
  ~ (0 <= row < BOARD_DIMENSION /\ 0 <= col < BOARD_DIMENSION)
  \/ (0 <= row < BOARD_DIMENSION /\ 0 <= col < BOARD_DIMENSION
      /\ get b row col <> 0) ->
  applyHumanMove b row col = (b, false).
Proof.
  intros _ H. unfold applyHumanMove.
  destruct (CheckValidMove b row col) eqn:E; [|reflexivity].
  unfold CheckValidMove in E.
  apply andb_true_iff in E as [E Hz]. apply andb_true_iff in E as [Hr Hc].
  apply in_range_true in Hr, Hc. apply Z.eqb_eq in Hz.
  destruct H as [H|[_ [_ H]]]; [tauto|contradiction].
Qed.

(** ** Win detection *)

Ltac at_start H :=
  change (Z.of_nat 0) with 0 in H; rewrite ?Z.mul_0_r, ?Z.add_0_r in H.

Lemma run_from_full (b : board) (p dr dc : Z) (n : nat) :
  forall r c,
    run_from n b p r c dr dc = Z.of_nat n <-> run_at b p r c dr dc n.
Proof.
  induction n as [|n IH]; intros r c.
  - split; [intros _ i Hi; lia | reflexivity].
  - rewrite run_from_S. split.
    + intros H.
      destruct (in_range r && in_range c && (get b r c =? p)) eqn:E; [|lia].
      apply andb_true_iff in E as [E Hp]. apply andb_true_iff in E as [Hr Hc].
      apply Z.eqb_eq in Hp.
      assert (Hn : run_at b p (r + dr) (c + dc) dr dc n) by (apply IH; lia).
      intros [|j] Hj.
      * change (Z.of_nat 0) with 0. rewrite !Z.mul_0_r, !Z.add_0_r. auto.
      * specialize (Hn j ltac:(lia)).
        replace (r + dr * Z.of_nat (S j)) with (r + dr + dr * Z.of_nat j)
          by lia.
        replace (c + dc * Z.of_nat (S j)) with (c + dc + dc * Z.of_nat j)
          by lia.
        exact Hn.
    + intros H.
      destruct (H O ltac:(lia)) as [Hr [Hc Hp]].
      at_start Hr; at_start Hc; at_start Hp.
      rewrite Hr, Hc. apply Z.eqb_eq in Hp. rewrite Hp. cbn [andb].
      assert (Hn : run_at b p (r + dr) (c + dc) dr dc n).
      { intros j Hj. specialize (H (S j) ltac:(lia)).
        replace (r + dr * Z.of_nat (S j)) with (r + dr + dr * Z.of_nat j)
          in H by lia.
        replace (c + dc * Z.of_nat (S j)) with (c + dc + dc * Z.of_nat j)
          in H by lia.
        exact H. }
      apply IH in Hn. lia.
Qed.

Lemma WinnerCheck_true_iff (b : board) (p : Z) :
  WinnerCheck b p = true <->
  exists row col dr dc,
    In (dr, dc) directions /\ run_at b p row col dr dc 5.
Proof.
  unfold WinnerCheck. rewrite existsb_exists. split.
  - intros [row [_ H]]. apply existsb_exists in H as [col [_ H]].
    destruct (negb (get b row col =? p)); [discriminate|].
    apply existsb_exists in H as [[dr dc] [Hd H]].
    apply Z.eqb_eq in H. rewrite PatternCount_run_from in H.
    exists row, col, dr, dc. split; [assumption|].
    apply (run_from_full b p dr dc 5). exact H.
  - intros [row [col [dr [dc [Hd Hrun]]]]].
    destruct (Hrun O ltac:(lia)) as [Hr [Hc Hp]].
    at_start Hr; at_start Hc; at_start Hp.
    exists row. split; [now apply in_range_In|].
    apply existsb_exists. exists col. split; [now apply in_range_In|].
    apply Z.eqb_eq in Hp. rewrite Hp. cbn [negb].
    apply existsb_exists. exists (dr, dc). split; [assumption|].
    apply Z.eqb_eq. rewrite PatternCount_run_from.
    apply (run_from_full b p dr dc 5). exact Hrun.
Qed.

Lemma directions_axis_steps (dr dc : Z) :
  In (dr, dc) directions -> In (dr, dc) axis_steps.
Proof.
  unfold directions, axis_steps. simpl.
  intros [E|[E|[E|[E|[]]]]]; injection E as <- <-; tauto.
Qed.

(** Each step is one of the scan's directions, or the opposite of one. *)
Lemma axis_steps_directions (dr dc : Z) :
  In (dr, dc) axis_steps ->
  In (dr, dc) directions \/ In (- dr, - dc) directions.
Proof.
  unfold directions, axis_steps. simpl.
  intros [E|[E|[E|[E|[E|[E|[E|[E|[]]]]]]]]]; injection E as <- <-;
    simpl; tauto.
Qed.

(** C2: [WinnerCheck] answers [True] exactly when the board holds a run of
    at least five cells of the player along a row, a column or either
    diagonal; scanning forward from each cell in the four directions misses
    none of them, whichever way the run is walked. *)
Theorem WinnerCheck_iff_has_run (b : board) (player : Z) :
  wf_board b -> (WinnerCheck b player = true <-> has_run b player).
Proof.
  intros _. rewrite WinnerCheck_true_iff. split.
  - intros [row [col [dr [dc [Hd Hrun]]]]].
    exists row, col, dr, dc, 5%nat. split; [|split; [lia|assumption]].
    now apply directions_axis_steps.
  - intros [r [c [dr [dc [k [Hd [Hk Hrun]]]]]]].
    apply axis_steps_directions in Hd as [Hd|Hd].
    + exists r, c, dr, dc. split; [assumption|].
      intros i Hi. apply Hrun. lia.
    + exists (r + dr * 4), (c + dc * 4), (- dr), (- dc).
      split; [assumption|].
      intros i Hi. specialize (Hrun (4 - i)%nat ltac:(lia)).
      assert (E : Z.of_nat (4 - i) = 4 - Z.of_nat i) by lia.
      rewrite E in Hrun.
      replace (r + dr * 4 + - dr * Z.of_nat i)
        with (r + dr * (4 - Z.of_nat i)) by ring.
      replace (c + dc * 4 + - dc * Z.of_nat i)
        with (c + dc * (4 - Z.of_nat i)) by ring.
      exact Hrun.
Qed.

(** ** Candidate moves *)

Lemma move_eqb_eq (m n : move) : move_eqb m n = true <-> m = n.
Proof.
  destruct m as [a b], n as [c d]. unfold move_eqb. cbn [fst snd].
  rewrite andb_true_iff, !Z.eqb_eq. split.
  - intros [-> ->]. reflexivity.
  - intros H. injection H. auto.
Qed.

Lemma In_set_add (m x : move) (s : list move) :
  In m (set_add x s) <-> m = x \/ In m s.
Proof.
  induction s as [|y s IH]; cbn [set_add].
  - simpl. intuition.
  - destruct (move_eqb x y) eqn:E.
    + apply move_eqb_eq in E. subst y. simpl. intuition.
    + simpl. rewrite IH. intuition.
Qed.

Lemma NoDup_set_add (x : move) (s : list move) :
  NoDup s -> NoDup (set_add x s).
Proof.
  induction s as [|y s IH]; intros H; cbn [set_add].
  - constructor; [intros []|constructor].
  - destruct (move_eqb x y) eqn:E; [assumption|].
    inversion H; subst. constructor; [|auto].
    rewrite In_set_add. intros [->|Hin]; [|contradiction].
    assert (move_eqb x x = true) by now apply move_eqb_eq.
    congruence.
Qed.

(** A loop that only ever adds to the set. *)
Lemma fold_left_In {A} (step : list move -> A -> list move)
      (P : A -> move -> Prop) (l : list A) :
  (forall acc x m, In m (step acc x) <-> In m acc \/ P x m) ->
  forall acc m,
    In m (fold_left step l acc) <-> In m acc \/ exists x, In x l /\ P x m.
Proof.
  intros Hstep. induction l as [|x l IH]; intros acc m; cbn [fold_left].
  - split; [auto|]. intros [H|[x [[] _]]]. exact H.
  - rewrite IH, Hstep. split.
    + intros [[H|H]|[y [Hy H]]]; eauto.
      * right. exists x. split; [now left|assumption].
      * right. exists y. split; [now right|assumption].
    + intros [H|[y [[<-|Hy] H]]]; eauto.
Qed.

Lemma fold_left_NoDup {A} (step : list move -> A -> list move) (l : list A) :
  (forall acc x, NoDup acc -> NoDup (step acc x)) ->
  forall acc, NoDup acc -> NoDup (fold_left step l acc).
Proof.
  intros Hstep. induction l as [|x l IH]; intros acc H; cbn [fold_left]; auto.
Qed.

Lemma candidate_set_In (b : board) (radius : Z) (m : move) :
  In m (candidate_set b radius) <->
  exists row col dr dc,
    In row (range 0 BOARD_DIMENSION) /\ In col (range 0 BOARD_DIMENSION) /\
    get b row col <> 0 /\
    In dr (range (- radius) (radius + 1)) /\
    In dc (range (- radius) (radius + 1)) /\
    CheckValidMove b (row + dr) (col + dc) = true /\
    m = (row + dr, col + dc).
Proof.
  unfold candidate_set.
  rewrite fold_left_In with (P := fun row m =>
    exists col dr dc,
      In col (range 0 BOARD_DIMENSION) /\ get b row col <> 0 /\
      In dr (range (- radius) (radius + 1)) /\
      In dc (range (- radius) (radius + 1)) /\
      CheckValidMove b (row + dr) (col + dc) = true /\
      m = (row + dr, col + dc)).
  { split.
    - intros [[]|[row [Hrow [col [dr [dc H]]]]]].
      exists row, col, dr, dc. tauto.
    - intros [row [col [dr [dc H]]]]. right. exists row. split; [tauto|].
      exists col, dr, dc. tauto. }
  intros acc row m'.
  rewrite fold_left_In with (P := fun col m =>
    exists dr dc,
      get b row col <> 0 /\
      In dr (range (- radius) (radius + 1)) /\
      In dc (range (- radius) (radius + 1)) /\
      CheckValidMove b (row + dr) (col + dc) = true /\
      m = (row + dr, col + dc)).
  { split.
    - intros [H|[col [Hcol [dr [dc H]]]]]; [now left|].
      right. exists col, dr, dc. tauto.
    - intros [H|[col [dr [dc H]]]]; [now left|].
      right. exists col. split; [tauto|]. exists dr, dc. tauto. }
  clear acc m'. intros acc col m'.
  destruct (get b row col =? 0) eqn:E; cbn [negb].
  { apply Z.eqb_eq in E. split; [now left|].
    intros [H|[dr [dc [H _]]]]; [assumption|contradiction]. }
  apply Z.eqb_neq in E.
  rewrite fold_left_In with (P := fun dr m =>
    exists dc,
      In dc (range (- radius) (radius + 1)) /\
      CheckValidMove b (row + dr) (col + dc) = true /\
      m = (row + dr, col + dc)).
  { split.
    - intros [H|[dr [Hdr [dc H]]]]; [now left|].
      right. exists dr, dc. tauto.
    - intros [H|[dr [dc H]]]; [now left|].
      right. exists dr. split; [tauto|]. exists dc. tauto. }
  clear acc m'. intros acc dr m'.
  rewrite fold_left_In with (P := fun dc m =>
      CheckValidMove b (row + dr) (col + dc) = true /\
      m = (row + dr, col + dc)).
  { reflexivity. }
  clear acc m'. intros acc dc m'.
  destruct (CheckValidMove b (row + dr) (col + dc)).
  - rewrite In_set_add. intuition.
  - intuition discriminate.
Qed.

Lemma candidate_set_NoDup (b : board) (radius : Z) :
  NoDup (candidate_set b radius).
Proof.
  unfold candidate_set.
  apply fold_left_NoDup; [|constructor]. intros acc row Hacc.
  apply fold_left_NoDup; [|assumption]. clear acc Hacc. intros acc col Hacc.
  destruct (negb (get b row col =? 0)); [|assumption].
  apply fold_left_NoDup; [|assumption]. clear acc Hacc. intros acc dr Hacc.
  apply fold_left_NoDup; [|assumption]. clear acc Hacc. intros acc dc Hacc.
  destruct (CheckValidMove b (row + dr) (col + dc)); [|assumption].
  now apply NoDup_set_add.
Qed.

Lemma ValidMoveFinder_In (b : board) (radius : Z) (m : move) :
  In m (ValidMoveFinder b radius) <-> In m (candidate_set b radius).
Proof.
  unfold ValidMoveFinder. split; apply Permutation_in.
  - apply list_of_set_perm.
  - apply Permutation_sym, list_of_set_perm.
Qed.

Lemma ValidMoveFinder_valid (b : board) (radius : Z) (m : move) :
  In m (ValidMoveFinder b radius) ->
  CheckValidMove b (fst m) (snd m) = true.
Proof.
  rewrite ValidMoveFinder_In, candidate_set_In.
  intros [row [col [dr [dc [_ [_ [_ [_ [_ [H ->]]]]]]]]]]. exact H.
Qed.

(** C6: the candidates at radius 2 are exactly the empty cells of the board
    within Chebyshev distance 2 of an occupied cell, each listed once; a
    board with no occupied cell has none. *)
Theorem ValidMoveFinder_spec (b : board) :
  wf_board b ->
  (forall nr nc,
      In (nr, nc) (ValidMoveFinder b 2) <->
      (0 <= nr < BOARD_DIMENSION /\ 0 <= nc < BOARD_DIMENSION /\
       get b nr nc = 0 /\
       exists r c,
         0 <= r < BOARD_DIMENSION /\ 0 <= c < BOARD_DIMENSION /\
         get b r c <> 0 /\ near 2 r c nr nc))
  /\ NoDup (ValidMoveFinder b 2)
  /\ ((forall r c, 0 <= r < BOARD_DIMENSION -> 0 <= c < BOARD_DIMENSION ->
                   get b r c = 0) ->
      ValidMoveFinder b 2 = []).
Proof.
  intros _.
  assert (Hin : forall nr nc,
      In (nr, nc) (ValidMoveFinder b 2) <->
      (0 <= nr < BOARD_DIMENSION /\ 0 <= nc < BOARD_DIMENSION /\
       get b nr nc = 0 /\
       exists r c,
         0 <= r < BOARD_DIMENSION /\ 0 <= c < BOARD_DIMENSION /\
         get b r c <> 0 /\ near 2 r c nr nc)).
  { intros nr nc. rewrite ValidMoveFinder_In, candidate_set_In. split.
    - intros [row [col [dr [dc [Hrow [Hcol [Hocc [Hdr [Hdc [Hv Hm]]]]]]]]]].
      injection Hm as -> ->.
      unfold CheckValidMove in Hv.
      apply andb_true_iff in Hv as [Hv Hz].
      apply andb_true_iff in Hv as [Hr Hc].
      apply in_range_true in Hr, Hc. apply Z.eqb_eq in Hz.
      apply In_range in Hrow, Hcol, Hdr, Hdc.
      repeat split; try lia; try assumption.
      exists row, col. unfold near. repeat split; try lia; assumption.
    - intros [Hr [Hc [Hz [r [c [Hrr [Hcc [Hocc [Hn1 Hn2]]]]]]]]].
      exists r, c, (nr - r), (nc - c).
      rewrite !In_range. unfold CheckValidMove.
      replace (r + (nr - r)) with nr by lia.
      replace (c + (nc - c)) with nc by lia.
      apply in_range_true in Hr, Hc. rewrite Hr, Hc.
      apply Z.eqb_eq in Hz. rewrite Hz.
      repeat split; try lia; try assumption. }
  split; [exact Hin|]. split.
  - unfold ValidMoveFinder.
    eapply Permutation_NoDup;
      [apply Permutation_sym, list_of_set_perm | apply candidate_set_NoDup].
  - intros Hempty. destruct (ValidMoveFinder b 2) as [|[nr nc] l] eqn:E;
      [reflexivity|].
    destruct (proj1 (Hin nr nc) (or_introl eq_refl))
      as [_ [_ [_ [r [c [Hr [Hc [Hocc _]]]]]]]].
    exfalso. apply Hocc, Hempty; assumption.
Qed.

(** ** Speculative placements are undone *)

Lemma wouldWin_valid (b : board) (row col player : Z) :
  wf_board b ->
  CheckValidMove b row col = true ->
  wouldWin b row col player =
  (b, WinnerCheck (MakeMove b row col player) player).
Proof.
  intros Hwf Hv. unfold wouldWin, MakeMove.
  now rewrite set_cell_restore.
Qed.

(** C7: the probe is the body of the loop of [CriticalMoveFinder], and the
    cells that loop hands it are the candidates of the board.  On every one
    of them, for every board and side, the probe leaves the board exactly as
    it was, and its answer is that of [WinnerCheck] on the board with the
    stone placed, be it [True] or [False]. *)
Theorem wouldWin_restores (b : board) (row col player : Z) :
  wf_board b ->
  In (row, col) (ValidMoveFinder b 2) ->
  wouldWin b row col player =
  (b, WinnerCheck (MakeMove b row col player) player).
Proof.
  intros Hwf Hin. apply wouldWin_valid; [assumption|].
  apply (ValidMoveFinder_valid b 2 (row, col) Hin).
Qed.

Lemma critical_loop_find (b : board) (player : Z) (moves : list move) :
  wf_board b ->
  (forall m, In m moves -> CheckValidMove b (fst m) (snd m) = true) ->
  critical_loop moves b player =
  (b, find (fun m : move =>
             WinnerCheck (MakeMove b (fst m) (snd m) player) player)
           moves).
Proof.
  intros Hwf. induction moves as [|[row col] rest IH]; intros Hv.
  - reflexivity.
  - cbn [critical_loop find fst snd].
    rewrite wouldWin_valid by (auto; apply (Hv (row, col)); now left).
    destruct (WinnerCheck (MakeMove b row col player) player).
    + reflexivity.
    + apply IH. intros m Hm. apply Hv. now right.
Qed.

Lemma CriticalMoveFinder_find (b : board) (player : Z) :
  wf_board b ->
  CriticalMoveFinder b player =
  (b, find (fun m : move =>
             WinnerCheck (MakeMove b (fst m) (snd m) player) player)
           (ValidMoveFinder b 2)).
Proof.
  intros Hwf. apply critical_loop_find; auto.
  intros m. apply ValidMoveFinder_valid.
Qed.

Section Loops.

(** What the loops need of the recursive call: it hands the board back as
    it got it. *)
Variable child : board -> score -> score -> board * score.
Hypothesis child_restores :
  forall b alpha beta, wf_board b -> fst (child b alpha beta) = b.

Lemma max_loop_restores (moves : list move) (b : board) :
  wf_board b ->
  (forall m, In m moves -> CheckValidMove b (fst m) (snd m) = true) ->
  forall alpha beta max_eval best_move,
    fst (fst (max_loop child moves b alpha beta max_eval best_move)) = b.
Proof.
  intros Hwf. induction moves as [|[row col] rest IH]; intros Hv **.
  - reflexivity.
  - cbn [max_loop].
    pose proof (child_restores (set_cell b row col AI) alpha beta
                  (wf_set_cell _ _ _ _ Hwf)) as Hc.
    destruct (child (set_cell b row col AI) alpha beta) as [b2 eval].
    cbn [fst] in Hc. subst b2.
    rewrite set_cell_restore by (auto; apply (Hv (row, col)); now left).
    destruct (sleb beta (smax alpha eval)); [reflexivity|].
    apply IH. intros m Hm. apply Hv. now right.
Qed.

Lemma min_loop_restores (moves : list move) (b : board) :
  wf_board b ->
  (forall m, In m moves -> CheckValidMove b (fst m) (snd m) = true) ->
  forall alpha beta min_eval best_move,
    fst (fst (min_loop child moves b alpha beta min_eval best_move)) = b.
Proof.
  intros Hwf. induction moves as [|[row col] rest IH]; intros Hv **.
  - reflexivity.
  - cbn [min_loop].
    pose proof (child_restores (set_cell b row col HUMAN) alpha beta
                  (wf_set_cell _ _ _ _ Hwf)) as Hc.
    destruct (child (set_cell b row col HUMAN) alpha beta) as [b2 eval].
    cbn [fst] in Hc. subst b2.
    rewrite set_cell_restore by (auto; apply (Hv (row, col)); now left).
    destruct (sleb (smin beta eval) alpha); [reflexivity|].
    apply IH. intros m Hm. apply Hv. now right.
Qed.

End Loops.

Lemma MiniMax_board (depth : nat) :
  forall (b : board) (alpha beta : score) (maximizing_player : bool),
    wf_board b ->
    fst (fst (MiniMax depth b alpha beta maximizing_player)) = b.
Proof.
  induction depth as [|d IH]; intros b alpha beta mx Hwf.
  - reflexivity.
  - cbn [MiniMax].
    destruct (WinnerCheck b HUMAN || WinnerCheck b AI); [reflexivity|].
    destruct mx.
    + apply max_loop_restores; auto.
      * intros b' a' be' Hwf'. specialize (IH b' a' be' false Hwf').
        destruct (MiniMax d b' a' be' false) as [[b'' m] e]. exact IH.
      * intros m. apply ValidMoveFinder_valid.
    + apply min_loop_restores; auto.
      * intros b' a' be' Hwf'. specialize (IH b' a' be' true Hwf').
        destruct (MiniMax d b' a' be' true) as [[b'' m] e]. exact IH.
      * intros m. apply ValidMoveFinder_valid.
Qed.

(** C4: whatever the depth, the window and the side to move, the search
    hands the board back exactly as it received it, cut or no cut. *)
Theorem MiniMax_restores_board (b : board) (depth : nat) (alpha beta : score)
        (maximizing_player : bool) :
  wf_board b ->
  fst (fst (MiniMax depth b alpha beta maximizing_player)) = b.
Proof. apply MiniMax_board. Qed.

(** C1 (as amended): with plies left, no winner and no candidate, the
    search makes no evaluation: it returns no move and the score its loop
    started from, minus infinity when maximizing and plus infinity when
    minimizing, and the board as it was. *)
Theorem MiniMax_no_candidates (depth : nat) (b : board) (alpha beta : score)
        (maximizing_player : bool) :
  wf_board b ->
  WinnerCheck b HUMAN = false -> WinnerCheck b AI = false ->
  (0 < depth)%nat ->
  ValidMoveFinder b 2 = [] ->
  MiniMax depth b alpha beta maximizing_player =
  (b, None, if maximizing_player then NegInf else PosInf).
Proof.
  intros _ Hh Ha Hd Hnil. destruct depth as [|d]; [lia|].
  cbn [MiniMax]. rewrite Hh, Ha, Hnil. cbn [orb].
  destruct maximizing_player; reflexivity.
Qed.

(** ** Move selection *)

(** C5: if some candidate wins at once for the engine, [AI_move] returns
    such a cell, and it does so whatever is put in the place of the search;
    otherwise, if some candidate would win at once for the human, [AI_move]
    returns such a cell, again whatever is put in the place of the search;
    otherwise the move of [AI_move] is the one the depth-2 search finds with
    the engine maximizing.  The board is handed back unchanged in each
    case. *)
Theorem AI_move_priority (b : board) :
  wf_board b ->
  let wins player (m : move) :=
    WinnerCheck (MakeMove b (fst m) (snd m) player) player in
  let candidates := ValidMoveFinder b 2 in
  ((exists m, In m candidates /\ wins AI m = true) ->
   exists m,
     In m candidates /\ wins AI m = true /\
     AI_move b = (b, Some m) /\
     forall search, AI_move_with search b = (b, Some m))
  /\ ((forall m, In m candidates -> wins AI m = false) ->
      (exists m, In m candidates /\ wins HUMAN m = true) ->
      exists m,
        In m candidates /\ wins HUMAN m = true /\
        AI_move b = (b, Some m) /\
        forall search, AI_move_with search b = (b, Some m))
  /\ ((forall m, In m candidates -> wins AI m = false) ->
      (forall m, In m candidates -> wins HUMAN m = false) ->
      AI_move b = (b, snd (fst (MiniMax 2 b NegInf PosInf true)))).
Proof.
  intros Hwf wins candidates.
  assert (Hnone : forall p,
             (forall m, In m candidates -> wins p m = false) ->
             find (wins p) candidates = None).
  { intros p H. destruct (find (wins p) candidates) as [m|] eqn:E; auto.
    apply find_some in E as [Hin Hw]. rewrite (H m Hin) in Hw.
    discriminate. }
  assert (Hsome : forall p,
             (exists m, In m candidates /\ wins p m = true) ->
             exists m, find (wins p) candidates = Some m /\
                       In m candidates /\ wins p m = true).
  { intros p [m [Hin Hw]].
    destruct (find (wins p) candidates) as [m'|] eqn:E.
    - exists m'. apply find_some in E. tauto.
    - rewrite (find_none _ _ E m Hin) in Hw. discriminate. }
  subst wins candidates. cbv beta in *. split; [|split].
  - intros Hex. destruct (Hsome AI Hex) as [m [Hf [Hin Hw]]].
    assert (Hany : forall search, AI_move_with search b = (b, Some m)).
    { intros search. unfold AI_move_with.
      rewrite CriticalMoveFinder_find by assumption. now rewrite Hf. }
    exists m. split; [assumption|]. split; [assumption|].
    split; [apply Hany|exact Hany].
  - intros Hno Hex. destruct (Hsome HUMAN Hex) as [m [Hf [Hin Hw]]].
    assert (Hany : forall search, AI_move_with search b = (b, Some m)).
    { intros search. unfold AI_move_with.
      rewrite CriticalMoveFinder_find by assumption.
      rewrite (Hnone AI Hno).
      rewrite CriticalMoveFinder_find by assumption. now rewrite Hf. }
    exists m. split; [assumption|]. split; [assumption|].
    split; [apply Hany|exact Hany].
  - intros HnoA HnoH. unfold AI_move, AI_move_with.
    rewrite CriticalMoveFinder_find by assumption.
    rewrite (Hnone AI HnoA).
    rewrite CriticalMoveFinder_find by assumption.
    rewrite (Hnone HUMAN HnoH).
    pose proof (MiniMax_board 2 b NegInf PosInf true Hwf) as Hb.
    destruct (MiniMax 2 b NegInf PosInf true) as [[b3 mv] sc].
    cbn [fst snd] in *. now subst b3.
Qed.

(** ** The order on scores *)

Ltac score_cbn := cbn [sltb slt sle seq_score negb] in *.

Ltac split_scores :=
  repeat (match goal with x : score |- _ => destruct x end;
          score_cbn; try contradiction; try discriminate).

Ltac split_ltb :=
  repeat match goal with
         | H : context [Z.ltb _ _] |- _ => revert H
         end;
  repeat match goal with
         | |- context [Z.ltb ?a ?b] => destruct (Z.ltb_spec a b)
         end;
  intros.

(** Decides a statement on the order of a few scores by cases. *)
Ltac order_scores :=
  unfold window_ok, max_state, min_state, smax, smin, sleb;
  intros;
  repeat match goal with H : _ /\ _ |- _ => destruct H end;
  split_scores; split_ltb; score_cbn;
  try contradiction; try discriminate; try tauto; try lia.

Lemma sltb_true (x y : score) : sltb x y = true <-> slt x y.
Proof.
  destruct x, y; cbn; try rewrite Z.ltb_lt; intuition discriminate.
Qed.

Lemma sltb_false (x y : score) : sltb x y = false <-> sle y x.
Proof.
  destruct x, y; cbn; try rewrite Z.ltb_ge; intuition discriminate.
Qed.

Lemma sleb_true (x y : score) : sleb x y = true <-> sle x y.
Proof. unfold sleb. rewrite negb_true_iff. apply sltb_false. Qed.

Lemma sleb_false (x y : score) : sleb x y = false <-> slt y x.
Proof. unfold sleb. rewrite negb_false_iff. apply sltb_true. Qed.

Lemma seq_score_eq (x y : score) : seq_score x y <-> x = y.
Proof.
  destruct x, y; cbn; split; intros H; try congruence; try tauto;
    try discriminate.
Qed.

Lemma max_state_init (alpha0 : score) : max_state alpha0 NegInf alpha0 NegInf.
Proof. order_scores. Qed.

Lemma max_state_done (alpha0 beta M alpha max_eval : score) :
  slt alpha beta -> max_state alpha0 M alpha max_eval ->
  window_ok alpha0 beta M max_eval.
Proof. order_scores. Qed.

Lemma max_state_next (alpha0 beta M alpha max_eval v r : score) :
  slt alpha beta -> max_state alpha0 M alpha max_eval ->
  window_ok alpha beta v r ->
  slt (smax alpha r) beta ->
  max_state alpha0 (if sltb M v then v else M) (smax alpha r)
            (if sltb max_eval r then r else max_eval).
Proof. order_scores. Qed.

Lemma max_state_cut (alpha0 beta M alpha max_eval v r V : score) :
  slt alpha beta -> max_state alpha0 M alpha max_eval ->
  window_ok alpha beta v r ->
  sle beta (smax alpha r) ->
  sle v V ->
  window_ok alpha0 beta V (if sltb max_eval r then r else max_eval).
Proof. order_scores. Qed.

Lemma min_state_init (beta0 : score) : min_state beta0 PosInf beta0 PosInf.
Proof. order_scores. Qed.

Lemma min_state_done (alpha beta0 M beta min_eval : score) :
  slt alpha beta -> min_state beta0 M beta min_eval ->
  window_ok alpha beta0 M min_eval.
Proof. order_scores. Qed.

Lemma min_state_next (alpha beta0 M beta min_eval v r : score) :
  slt alpha beta -> min_state beta0 M beta min_eval ->
  window_ok alpha beta v r ->
  slt alpha (smin beta r) ->
  min_state beta0 (if sltb v M then v else M) (smin beta r)
            (if sltb r min_eval then r else min_eval).
Proof. order_scores. Qed.

Lemma min_state_cut (alpha beta0 M beta min_eval v r V : score) :
  slt alpha beta -> min_state beta0 M beta min_eval ->
  window_ok alpha beta v r ->
  sle (smin beta r) alpha ->
  sle V v ->
  window_ok alpha beta0 V (if sltb r min_eval then r else min_eval).
Proof. order_scores. Qed.

Lemma window_ok_exact (alpha beta v : score) : window_ok alpha beta v v.
Proof. order_scores. Qed.

Lemma sle_refl (x : score) : sle x x.
Proof. order_scores. Qed.

Lemma sle_trans (x y z : score) : sle x y -> sle y z -> sle x z.
Proof. order_scores. Qed.

Lemma slt_sle (x y : score) : slt x y -> sle x y.
Proof. order_scores. Qed.

(** With the whole line as window the answer is the value, unless it is no
    better than what is already in hand. *)
Lemma window_above (M v r : score) :
  window_ok M PosInf v r -> slt M v -> r = v.
Proof. intros H1 H2. apply seq_score_eq. revert H1 H2. order_scores. Qed.

Lemma window_not_above (M v r : score) :
  window_ok M PosInf v r -> sle v M -> sle r M.
Proof. order_scores. Qed.

Lemma window_below (M v r : score) :
  window_ok NegInf M v r -> slt v M -> r = v.
Proof. intros H1 H2. apply seq_score_eq. revert H1 H2. order_scores. Qed.

Lemma window_not_below (M v r : score) :
  window_ok NegInf M v r -> sle M v -> sle M r.
Proof. order_scores. Qed.

Lemma top_is_PosInf (v : score) : sle PosInf v -> v = PosInf.
Proof. destruct v; cbn; tauto. Qed.

Lemma bottom_is_NegInf (v : score) : sle v NegInf -> v = NegInf.
Proof. destruct v; cbn; tauto. Qed.

(** ** The pruned loops against the exhaustive ones *)

Section PrunedLoops.

(** [child] is the recursive call of the pruned search and [value] the
    exhaustive value of the same node. *)
Variable child : board -> score -> score -> board * score.
Variable value : board -> score.
Hypothesis child_ok :
  forall b alpha beta,
    wf_board b -> slt alpha beta ->
    fst (child b alpha beta) = b /\
    window_ok alpha beta (value b) (snd (child b alpha beta)).

Lemma plain_max_ge (moves : list move) (b : board) :
  forall best bm, sle best (snd (plain_max value moves b best bm)).
Proof.
  induction moves as [|[row col] rest IH]; intros best bm; cbn [plain_max].
  - apply sle_refl.
  - destruct (sltb best (value (set_cell b row col AI))) eqn:E.
    + apply sltb_true, slt_sle in E. eapply sle_trans; [exact E|apply IH].
    + apply IH.
Qed.

Lemma plain_min_le (moves : list move) (b : board) :
  forall best bm, sle (snd (plain_min value moves b best bm)) best.
Proof.
  induction moves as [|[row col] rest IH]; intros best bm; cbn [plain_min].
  - apply sle_refl.
  - destruct (sltb (value (set_cell b row col HUMAN)) best) eqn:E.
    + apply sltb_true, slt_sle in E. eapply sle_trans; [apply IH|exact E].
    + apply IH.
Qed.

Lemma plain_max_top (moves : list move) (b : board) (bm : option move) :
  plain_max value moves b PosInf bm = (bm, PosInf).
Proof.
  induction moves as [|[row col] rest IH]; cbn [plain_max]; auto.
Qed.

Lemma plain_min_bottom (moves : list move) (b : board) (bm : option move) :
  plain_min value moves b NegInf bm = (bm, NegInf).
Proof.
  induction moves as [|[row col] rest IH]; cbn [plain_min]; auto.
  destruct (value (set_cell b row col HUMAN)); cbn [sltb]; apply IH.
Qed.

Lemma max_loop_window (moves : list move) (b : board) :
  wf_board b ->
  (forall m, In m moves -> CheckValidMove b (fst m) (snd m) = true) ->
  forall alpha0 beta alpha max_eval best M bestM,
    slt alpha beta -> max_state alpha0 M alpha max_eval ->
    window_ok alpha0 beta
              (snd (plain_max value moves b M bestM))
              (snd (max_loop child moves b alpha beta max_eval best)).
Proof.
  intros Hwf. induction moves as [|[row col] rest IH];
    intros Hv alpha0 beta alpha max_eval best M bestM Hlt Hst.
  - cbn [max_loop plain_max snd]. eapply max_state_done; eauto.
  - cbn [max_loop plain_max].
    destruct (child_ok (set_cell b row col AI) alpha beta
                (wf_set_cell _ _ _ _ Hwf) Hlt) as [Hb Hok].
    destruct (child (set_cell b row col AI) alpha beta) as [b2 r].
    cbn [fst snd] in Hb, Hok. subst b2.
    rewrite set_cell_restore by (auto; apply (Hv (row, col)); now left).
    assert (Hrest : forall m, In m rest ->
                              CheckValidMove b (fst m) (snd m) = true)
      by (intros m Hm; apply Hv; now right).
    set (v := value (set_cell b row col AI)) in *.
    destruct (sleb beta (smax alpha r)) eqn:Ecut.
    + apply sleb_true in Ecut. cbn [snd].
      eapply max_state_cut with (v := v); eauto.
      destruct (sltb M v) eqn:E.
      * apply plain_max_ge.
      * apply sltb_false in E.
        eapply sle_trans; [exact E|apply plain_max_ge].
    + apply sleb_false in Ecut.
      pose proof (max_state_next _ _ _ _ _ _ _ Hlt Hst Hok Ecut) as Hnext.
      destruct (sltb M v) eqn:E; apply IH; auto.
Qed.

Lemma min_loop_window (moves : list move) (b : board) :
  wf_board b ->
  (forall m, In m moves -> CheckValidMove b (fst m) (snd m) = true) ->
  forall alpha beta0 beta min_eval best M bestM,
    slt alpha beta -> min_state beta0 M beta min_eval ->
    window_ok alpha beta0
              (snd (plain_min value moves b M bestM))
              (snd (min_loop child moves b alpha beta min_eval best)).
Proof.
  intros Hwf. induction moves as [|[row col] rest IH];
    intros Hv alpha beta0 beta min_eval best M bestM Hlt Hst.
  - cbn [min_loop plain_min snd]. eapply min_state_done; eauto.
  - cbn [min_loop plain_min].
    destruct (child_ok (set_cell b row col HUMAN) alpha beta
                (wf_set_cell _ _ _ _ Hwf) Hlt) as [Hb Hok].
    destruct (child (set_cell b row col HUMAN) alpha beta) as [b2 r].
    cbn [fst snd] in Hb, Hok. subst b2.
    rewrite set_cell_restore by (auto; apply (Hv (row, col)); now left).
    assert (Hrest : forall m, In m rest ->
                              CheckValidMove b (fst m) (snd m) = true)
      by (intros m Hm; apply Hv; now right).
    set (v := value (set_cell b row col HUMAN)) in *.
    destruct (sleb (smin beta r) alpha) eqn:Ecut.
    + apply sleb_true in Ecut. cbn [snd].
      eapply min_state_cut with (v := v); eauto.
      destruct (sltb v M) eqn:E.
      * apply plain_min_le.
      * apply sltb_false in E.
        eapply sle_trans; [apply plain_min_le|exact E].
    + apply sleb_false in Ecut.
      pose proof (min_state_next _ _ _ _ _ _ _ Hlt Hst Hok Ecut) as Hnext.
      destruct (sltb v M) eqn:E; apply IH; auto.
Qed.

(** At the root the window is the whole line: the loop's [alpha] and
    [max_eval] are both the exhaustive best so far, and so is the move. *)
Lemma max_loop_root (moves : list move) (b : board) :
  wf_board b ->
  (forall m, In m moves -> CheckValidMove b (fst m) (snd m) = true) ->
  forall M best,
    slt M PosInf ->
    max_loop child moves b M PosInf M best =
    (b, fst (plain_max value moves b M best),
        snd (plain_max value moves b M best)).
Proof.
  intros Hwf. induction moves as [|[row col] rest IH];
    intros Hv M best Hlt.
  - reflexivity.
  - cbn [max_loop plain_max].
    destruct (child_ok (set_cell b row col AI) M PosInf
                (wf_set_cell _ _ _ _ Hwf) Hlt) as [Hb Hok].
    destruct (child (set_cell b row col AI) M PosInf) as [b2 r].
    cbn [fst snd] in Hb, Hok. subst b2.
    rewrite set_cell_restore by (auto; apply (Hv (row, col)); now left).
    assert (Hrest : forall m, In m rest ->
                              CheckValidMove b (fst m) (snd m) = true)
      by (intros m Hm; apply Hv; now right).
    set (v := value (set_cell b row col AI)) in *.
    destruct (sltb M v) eqn:E.
    + pose proof E as E'. apply sltb_true in E'.
      rewrite (window_above _ _ _ Hok E'). unfold smax. rewrite E.
      destruct (sleb PosInf v) eqn:Ecut.
      * apply sleb_true, top_is_PosInf in Ecut. rewrite Ecut.
        now rewrite plain_max_top.
      * apply sleb_false in Ecut. apply IH; auto.
    + pose proof E as E'. apply sltb_false in E'.
      pose proof (window_not_above _ _ _ Hok E') as Hr.
      apply sltb_false in Hr. unfold smax. rewrite Hr.
      apply sleb_false in Hlt. rewrite Hlt. apply IH; auto.
      now apply sleb_false.
Qed.

Lemma min_loop_root (moves : list move) (b : board) :
  wf_board b ->
  (forall m, In m moves -> CheckValidMove b (fst m) (snd m) = true) ->
  forall M best,
    slt NegInf M ->
    min_loop child moves b NegInf M M best =
    (b, fst (plain_min value moves b M best),
        snd (plain_min value moves b M best)).
Proof.
  intros Hwf. induction moves as [|[row col] rest IH];
    intros Hv M best Hlt.
  - reflexivity.
  - cbn [min_loop plain_min].
    destruct (child_ok (set_cell b row col HUMAN) NegInf M
                (wf_set_cell _ _ _ _ Hwf) Hlt) as [Hb Hok].
    destruct (child (set_cell b row col HUMAN) NegInf M) as [b2 r].
    cbn [fst snd] in Hb, Hok. subst b2.
    rewrite set_cell_restore by (auto; apply (Hv (row, col)); now left).
    assert (Hrest : forall m, In m rest ->
                              CheckValidMove b (fst m) (snd m) = true)
      by (intros m Hm; apply Hv; now right).
    set (v := value (set_cell b row col HUMAN)) in *.
    destruct (sltb v M) eqn:E.
    + pose proof E as E'. apply sltb_true in E'.
      rewrite (window_below _ _ _ Hok E'). unfold smin. rewrite E.
      destruct (sleb v NegInf) eqn:Ecut.
      * apply sleb_true, bottom_is_NegInf in Ecut. rewrite Ecut.
        now rewrite plain_min_bottom.
      * apply sleb_false in Ecut. apply IH; auto.
    + pose proof E as E'. apply sltb_false in E'.
      pose proof (window_not_below _ _ _ Hok E') as Hr.
      apply sltb_false in Hr. unfold smin. rewrite Hr.
      apply sleb_false in Hlt. rewrite Hlt. apply IH; auto.
      now apply sleb_false.
Qed.

End PrunedLoops.

(** ** Alpha-beta against exhaustive minimax *)

(** The call of line 155 (or 169), as the loops take it. *)
Lemma child_call_ok (d : nat) (mx : bool) :
  (forall b alpha beta,
      wf_board b -> slt alpha beta ->
      window_ok alpha beta (snd (Exhaustive d b mx))
                (snd (MiniMax d b alpha beta mx))) ->
  forall b alpha beta,
    wf_board b -> slt alpha beta ->
    fst (let '(b'', _, eval) := MiniMax d b alpha beta mx in (b'', eval)) = b
    /\ window_ok alpha beta (snd (Exhaustive d b mx))
         (snd (let '(b'', _, eval) := MiniMax d b alpha beta mx
               in (b'', eval))).
Proof.
  intros IH b alpha beta Hwf Hlt.
  pose proof (MiniMax_board d b alpha beta mx Hwf) as Hb.
  specialize (IH b alpha beta Hwf Hlt).
  destruct (MiniMax d b alpha beta mx) as [[b'' m] e].
  cbn [fst snd] in *. auto.
Qed.

(** Any window, any depth: the pruned score stands to the exhaustive value
    as [window_ok] says. *)
Lemma MiniMax_window (d : nat) :
  forall b alpha beta mx,
    wf_board b -> slt alpha beta ->
    window_ok alpha beta (snd (Exhaustive d b mx))
              (snd (MiniMax d b alpha beta mx)).
Proof.
  induction d as [|d IH]; intros b alpha beta mx Hwf Hlt.
  - cbn [MiniMax Exhaustive snd]. apply window_ok_exact.
  - cbn [MiniMax Exhaustive].
    destruct (WinnerCheck b HUMAN || WinnerCheck b AI);
      [cbn [snd]; apply window_ok_exact|].
    destruct mx.
    + apply max_loop_window; auto.
      * apply child_call_ok. intros; now apply IH.
      * intros m. apply ValidMoveFinder_valid.
      * apply max_state_init.
    + apply min_loop_window; auto.
      * apply child_call_ok. intros; now apply IH.
      * intros m. apply ValidMoveFinder_valid.
      * apply min_state_init.
Qed.

(** C3: started on the whole line, the pruned search returns the move (and
    the score) of the exhaustive minimax over the same candidates in the
    same order, at every depth and for either side to move. *)
Theorem alpha_beta_same_move (b : board) (depth : nat) (maximizing : bool) :
  wf_board b ->
  snd (fst (MiniMax depth b NegInf PosInf maximizing)) =
    fst (Exhaustive depth b maximizing)
  /\ snd (MiniMax depth b NegInf PosInf maximizing) =
    snd (Exhaustive depth b maximizing).
Proof.
  intros Hwf. destruct depth as [|d].
  - split; reflexivity.
  - cbn [MiniMax Exhaustive].
    destruct (WinnerCheck b HUMAN || WinnerCheck b AI);
      [split; reflexivity|].
    destruct maximizing.
    + rewrite max_loop_root
        with (value := fun b' => snd (Exhaustive d b' false)); auto.
      * apply child_call_ok. intros; now apply MiniMax_window.
      * intros m. apply ValidMoveFinder_valid.
      * exact I.
    + rewrite min_loop_root
        with (value := fun b' => snd (Exhaustive d b' true)); auto.
      * apply child_call_ok. intros; now apply MiniMax_window.
      * intros m. apply ValidMoveFinder_valid.
      * exact I.
Qed.

(** * Further properties of the board, the detector and the evaluator *)

(** ** The board *)

Lemma get_Initialize_Board (r c : Z) : get Initialize_Board r c = 0.
Proof.
  unfold get, Initialize_Board.
  set (row0 := map (fun _ : Z => 0) (range 0 BOARD_DIMENSION)).
  assert (Hrow : forall n, nth n row0 0 = 0).
  { intros n. unfold row0.
    generalize (range 0 BOARD_DIMENSION). intros l. revert n.
    induction l; destruct n; simpl; auto. }
  assert (Hb : forall n (l : list Z),
             nth n (map (fun _ : Z => row0) l) [] = row0 \/
             nth n (map (fun _ : Z => row0) l) [] = []).
  { intros n l. revert n. induction l; destruct n; simpl; auto. }
  destruct (Hb (Z.to_nat r) (range 0 BOARD_DIMENSION)) as [-> | ->].
  - apply Hrow.
  - now destruct (Z.to_nat c).
Qed.

Lemma wf_Initialize_Board : wf_board Initialize_Board.
Proof. split; [reflexivity | repeat constructor]. Qed.

(** X1: the fresh board is 10 x 10 and every cell on it, and no other
    target, is a valid move. *)
Theorem Initialize_Board_all_valid :
  wf_board Initialize_Board /\
  forall row col,
    CheckValidMove Initialize_Board row col = true <->
    0 <= row < BOARD_DIMENSION /\ 0 <= col < BOARD_DIMENSION.
Proof.
  split; [apply wf_Initialize_Board|]. intros row col.
  unfold CheckValidMove. rewrite get_Initialize_Board.
  rewrite !andb_true_iff, !in_range_true, Z.eqb_eq. tauto.
Qed.

Lemma get_MakeMove (b : board) (r c p r' c' : Z) :
  wf_board b -> in_range r = true -> in_range c = true ->
  in_range r' = true -> in_range c' = true ->
  get (MakeMove b r c p) r' c' =
  if (r' =? r) && (c' =? c) then p else get b r' c'.
Proof.
  intros Hwf Hr Hc Hr' Hc'. unfold MakeMove.
  destruct ((r' =? r) && (c' =? c)) eqn:E.
  - apply andb_true_iff in E as [E1 E2].
    apply Z.eqb_eq in E1, E2. subst. now apply get_set_same.
  - apply in_range_true in Hr, Hc, Hr', Hc'.
    apply get_set_other; try lia.
    intros H. injection H as -> ->. rewrite !Z.eqb_refl in E. discriminate.
Qed.

(** X2: a stone placed on a cell of the board is read back there, every
    other cell reads as before, and the board keeps its shape. *)
Theorem MakeMove_read_back (b : board) (row col player : Z) :
  wf_board b ->
  0 <= row < BOARD_DIMENSION -> 0 <= col < BOARD_DIMENSION ->
  wf_board (MakeMove b row col player) /\
  get (MakeMove b row col player) row col = player /\
  forall r c,
    0 <= r < BOARD_DIMENSION -> 0 <= c < BOARD_DIMENSION ->
    (r, c) <> (row, col) ->
    get (MakeMove b row col player) r c = get b r c.
Proof.
  intros Hwf Hr Hc. apply in_range_true in Hr, Hc.
  split; [apply wf_set_cell; assumption|]. split.
  - rewrite get_MakeMove by assumption. now rewrite !Z.eqb_refl.
  - intros r c Hr' Hc' Hne. apply in_range_true in Hr', Hc'.
    rewrite get_MakeMove by assumption.
    destruct ((r =? row) && (c =? col)) eqn:E; [|reflexivity].
    apply andb_true_iff in E as [E1 E2]. apply Z.eqb_eq in E1, E2.
    subst. contradiction.
Qed.

Lemma CheckValidMove_parts (b : board) (r c : Z) :
  CheckValidMove b r c = true <->
  in_range r = true /\ in_range c = true /\ get b r c = 0.
Proof.
  unfold CheckValidMove. rewrite !andb_true_iff, Z.eqb_eq. tauto.
Qed.

(** X3: once a stone is on a cell, that cell is no valid move any more; the
    other cells are valid moves exactly as before. *)
Theorem CheckValidMove_after_move (b : board) (row col player : Z) :
  wf_board b ->
  CheckValidMove b row col = true ->
  player <> 0 ->
  forall r c,
    CheckValidMove (MakeMove b row col player) r c =
    CheckValidMove b r c && negb ((r =? row) && (c =? col)).
Proof.
  intros Hwf Hv Hp r c. apply CheckValidMove_parts in Hv as [Hr [Hc Hz]].
  unfold CheckValidMove.
  destruct (in_range r) eqn:Hr'; [|reflexivity].
  destruct (in_range c) eqn:Hc'; [|reflexivity]. cbn [andb].
  rewrite get_MakeMove by assumption.
  destruct ((r =? row) && (c =? col)) eqn:E; cbn [negb].
  - rewrite andb_false_r. now apply Z.eqb_neq.
  - now rewrite andb_true_r.
Qed.

(** ** Runs and moves *)

Lemma run_at_MakeMove_keep (b : board) (r c q p row col dr dc : Z) (k : nat) :
  wf_board b -> CheckValidMove b r c = true -> p <> 0 ->
  run_at b p row col dr dc k ->
  run_at (MakeMove b r c q) p row col dr dc k.
Proof.
  intros Hwf Hv Hp Hrun i Hi.
  apply CheckValidMove_parts in Hv as [Hr [Hc Hz]].
  destruct (Hrun i Hi) as [Hr' [Hc' Hg]].
  split; [assumption|]. split; [assumption|].
  rewrite get_MakeMove by assumption.
  destruct ((row + dr * Z.of_nat i =? r) && (col + dc * Z.of_nat i =? c))
    eqn:E; [|assumption].
  apply andb_true_iff in E as [E1 E2]. apply Z.eqb_eq in E1, E2.
  rewrite E1, E2 in Hg. congruence.
Qed.

Lemma run_at_MakeMove_back (b : board) (r c q p row col dr dc : Z) (k : nat) :
  wf_board b -> in_range r = true -> in_range c = true -> q <> p ->
  run_at (MakeMove b r c q) p row col dr dc k ->
  run_at b p row col dr dc k.
Proof.
  intros Hwf Hr Hc Hq Hrun i Hi.
  destruct (Hrun i Hi) as [Hr' [Hc' Hg]].
  split; [assumption|]. split; [assumption|].
  rewrite get_MakeMove in Hg by assumption.
  destruct ((row + dr * Z.of_nat i =? r) && (col + dc * Z.of_nat i =? c));
    [contradiction|assumption].
Qed.

Lemma WinnerCheck_MakeMove_keep (b : board) (r c q p : Z) :
  wf_board b -> CheckValidMove b r c = true -> p <> 0 ->
  WinnerCheck b p = true -> WinnerCheck (MakeMove b r c q) p = true.
Proof.
  intros Hwf Hv Hp. rewrite !WinnerCheck_true_iff.
  intros [row [col [dr [dc [Hd Hrun]]]]]. exists row, col, dr, dc.
  split; [assumption|]. now apply run_at_MakeMove_keep.
Qed.

Lemma WinnerCheck_MakeMove_other (b : board) (r c q p : Z) :
  wf_board b -> CheckValidMove b r c = true -> p <> 0 -> q <> p ->
  WinnerCheck (MakeMove b r c q) p = WinnerCheck b p.
Proof.
  intros Hwf Hv Hp Hq.
  destruct (WinnerCheck b p) eqn:E.
  - now apply WinnerCheck_MakeMove_keep.
  - destruct (WinnerCheck (MakeMove b r c q) p) eqn:E'; [|reflexivity].
    apply WinnerCheck_true_iff in E' as [row [col [dr [dc [Hd Hrun]]]]].
    apply CheckValidMove_parts in Hv as [Hr [Hc _]].
    apply run_at_MakeMove_back in Hrun; auto.
    rewrite <- E. symmetry. apply WinnerCheck_true_iff. eauto 6.
Qed.

(** X4: five in a row, once on the board, stays: no stone placed on an
    empty cell, of either side, undoes a win. *)
Theorem WinnerCheck_persists (b : board) (row col mover player : Z) :
  wf_board b ->
  CheckValidMove b row col = true ->
  player <> 0 ->
  WinnerCheck b player = true ->
  WinnerCheck (MakeMove b row col mover) player = true.
Proof. intros. now apply WinnerCheck_MakeMove_keep. Qed.

(** X5: a stone of one side never changes whether another side has five
    in a row. *)
Theorem WinnerCheck_unchanged_by_other (b : board) (row col mover player : Z) :
  wf_board b ->
  CheckValidMove b row col = true ->
  player <> 0 -> mover <> player ->
  WinnerCheck (MakeMove b row col mover) player = WinnerCheck b player.
Proof. intros. now apply WinnerCheck_MakeMove_other. Qed.

(** X6: a win that a move brings about runs through the stone just placed:
    one of its five cells is the cell of the move. *)
Theorem new_win_through_move (b : board) (row col player : Z) :
  wf_board b ->
  CheckValidMove b row col = true ->
  WinnerCheck b player = false ->
  WinnerCheck (MakeMove b row col player) player = true ->
  exists r c dr dc (i : nat),
    In (dr, dc) directions /\
    run_at (MakeMove b row col player) player r c dr dc 5 /\
    (i < 5)%nat /\
    r + dr * Z.of_nat i = row /\ c + dc * Z.of_nat i = col.
Proof.
  intros Hwf Hv Hno Hwin.
  apply WinnerCheck_true_iff in Hwin as [r [c [dr [dc [Hd Hrun]]]]].
  pose proof Hv as Hv'. apply CheckValidMove_parts in Hv' as [Hr [Hc Hz]].
  destruct (existsb (fun i : nat =>
              (r + dr * Z.of_nat i =? row) && (c + dc * Z.of_nat i =? col))
              (seq 0 5)) eqn:E.
  - apply existsb_exists in E as [i [Hi E]]. apply in_seq in Hi.
    apply andb_true_iff in E as [E1 E2]. apply Z.eqb_eq in E1, E2.
    exists r, c, dr, dc, i.
    split; [assumption|]. split; [assumption|]. split; [lia|]. auto.
  - assert (Hold : WinnerCheck b player = true); [|congruence].
    apply WinnerCheck_true_iff.
    exists r, c, dr, dc. split; [assumption|]. intros i Hi.
    destruct (Hrun i Hi) as [Hr' [Hc' Hg]].
    split; [assumption|]. split; [assumption|].
    rewrite get_MakeMove in Hg by assumption.
    destruct ((r + dr * Z.of_nat i =? row) && (c + dc * Z.of_nat i =? col))
      eqn:E'; [|assumption].
    assert (Hex : existsb (fun i : nat =>
              (r + dr * Z.of_nat i =? row) && (c + dc * Z.of_nat i =? col))
              (seq 0 5) = true).
    { apply existsb_exists. exists i. split; [apply in_seq; lia|exact E']. }
    congruence.
Qed.

(** ** Counting and scoring *)

Lemma run_from_le (f : nat) (b : board) (p dr dc : Z) :
  forall r c, run_from f b p r c dr dc <= Z.of_nat f.
Proof.
  induction f as [|f IH]; intros r c.
  - cbn [run_from]. lia.
  - rewrite run_from_S.
    destruct (in_range r && in_range c && (get b r c =? p)); [|lia].
    specialize (IH (r + dr) (c + dc)). lia.
Qed.

Lemma PatternCount_range (b : board) (row col dr dc target : Z) :
  0 <= PatternCount b row col dr dc target <= SEQUENCE_LENGTH.
Proof.
  rewrite PatternCount_run_from. split.
  - apply run_from_nonneg.
  - apply (run_from_le (Z.to_nat SEQUENCE_LENGTH)).
Qed.

(** X7: the pattern count lies between 0 and [SEQUENCE_LENGTH], and it is 0
    exactly when the start cell is off the board or does not hold the
    target. *)
Theorem PatternCount_bounds (b : board) (row col dr dc target : Z) :
  wf_board b ->
  0 <= PatternCount b row col dr dc target <= SEQUENCE_LENGTH /\
  (PatternCount b row col dr dc target = 0 <->
   ~ (0 <= row < BOARD_DIMENSION /\ 0 <= col < BOARD_DIMENSION /\
      get b row col = target)).
Proof.
  intros _. split; [apply PatternCount_range|].
  rewrite PatternCount_run_from.
  change (Z.to_nat SEQUENCE_LENGTH) with 5%nat. rewrite run_from_S.
  rewrite <- !in_range_true.
  pose proof (run_from_nonneg 4 b target dr dc (row + dr) (col + dc)).
  destruct (in_range row), (in_range col); cbn [andb];
    try (split; [intros _ [? [? _]]; discriminate|reflexivity]).
  destruct (get b row col =? target) eqn:E.
  - apply Z.eqb_eq in E. split; [lia|]. intros Hn. exfalso. apply Hn. auto.
  - apply Z.eqb_neq in E. split; [|reflexivity]. intros _ [_ [_ Hg]].
    contradiction.
Qed.

Lemma zsum_bound {A} (f : A -> Z) (l : list A) (lo hi : Z) :
  (forall x, In x l -> lo <= f x <= hi) ->
  Z.of_nat (length l) * lo <= zsum f l <= Z.of_nat (length l) * hi.
Proof.
  induction l as [|x l IH]; intros H.
  - simpl. lia.
  - cbn [zsum fold_right length].
    specialize (IH ltac:(intros; apply H; now right)).
    specialize (H x ltac:(now left)). unfold zsum in IH. lia.
Qed.

Lemma sum_cells_dirs_bound (f : Z -> Z -> Z -> Z -> Z) (lo hi : Z) :
  (forall row col dr dc,
      in_range row = true -> in_range col = true -> In (dr, dc) directions ->
      lo <= f row col dr dc <= hi) ->
  400 * lo <= sum_cells_dirs f <= 400 * hi.
Proof.
  intros H. unfold sum_cells_dirs.
  pose proof (zsum_bound
    (fun row => zsum (fun col => zsum (fun d : Z * Z =>
       f row col (fst d) (snd d)) directions) (range 0 BOARD_DIMENSION))
    (range 0 BOARD_DIMENSION) (40 * lo) (40 * hi)) as Hrows.
  change (Z.of_nat (length (range 0 BOARD_DIMENSION))) with 10 in Hrows.
  assert (Hall : forall row, In row (range 0 BOARD_DIMENSION) ->
    40 * lo <= zsum (fun col => zsum (fun d : Z * Z =>
       f row col (fst d) (snd d)) directions) (range 0 BOARD_DIMENSION)
    <= 40 * hi).
  { intros row Hrow.
    pose proof (zsum_bound
      (fun col => zsum (fun d : Z * Z => f row col (fst d) (snd d))
                       directions)
      (range 0 BOARD_DIMENSION) (4 * lo) (4 * hi)) as Hcols.
    change (Z.of_nat (length (range 0 BOARD_DIMENSION))) with 10 in Hcols.
    assert (Hcell : forall col, In col (range 0 BOARD_DIMENSION) ->
      4 * lo <= zsum (fun d : Z * Z => f row col (fst d) (snd d)) directions
      <= 4 * hi).
    { intros col Hcol.
      pose proof (zsum_bound
        (fun d : Z * Z => f row col (fst d) (snd d)) directions lo hi) as Hd.
      change (Z.of_nat (length directions)) with 4 in Hd.
      apply Hd. intros [dr dc] Hin. apply H; auto; now apply in_range_In. }
    specialize (Hcols Hcell). lia. }
  specialize (Hrows Hall). lia.
Qed.

Lemma contribution_range (b : board) (player row col dr dc : Z) :
  - 25 <= contribution b player row col dr dc <= 25.
Proof.
  unfold contribution.
  pose proof (PatternCount_range b row col dr dc player) as H1.
  pose proof (PatternCount_range b row col dr dc (opponent_of player)) as H2.
  unfold SEQUENCE_LENGTH in *. rewrite !Z.pow_2_r.
  destruct (get b row col =? player); [nia|].
  destruct (get b row col =? opponent_of player); [nia|lia].
Qed.

(** X8: on a 10 x 10 board the score stays within 10000 of zero: 100 cells,
    four directions, at most 25 each. *)
Theorem Board_Evaluate_bounded (b : board) (player : Z) :
  wf_board b -> - 10000 <= Board_Evaluate b player <= 10000.
Proof.
  intros _. rewrite Board_Evaluate_sum.
  pose proof (sum_cells_dirs_bound (contribution b player) (- 25) 25
                ltac:(intros; apply contribution_range)).
  lia.
Qed.

(** X9: a side with no stone of the opponent on the board is never scored
    below zero, and a side with no stone of its own never above. *)
Theorem Board_Evaluate_sign (b : board) (side : Z) :
  wf_board b ->
  side = HUMAN \/ side = AI ->
  ((forall row col,
       0 <= row < BOARD_DIMENSION -> 0 <= col < BOARD_DIMENSION ->
       get b row col <> opponent_of side) ->
   0 <= Board_Evaluate b side)
  /\ ((forall row col,
          0 <= row < BOARD_DIMENSION -> 0 <= col < BOARD_DIMENSION ->
          get b row col <> side) ->
      Board_Evaluate b side <= 0).
Proof.
  intros _ Hside. rewrite Board_Evaluate_sum. split; intros Hno.
  - pose proof (sum_cells_dirs_bound (contribution b side) 0 25) as H.
    assert (0 <= sum_cells_dirs (contribution b side) <= 400 * 25); [|lia].
    replace 0 with (400 * 0) at 1 by lia. apply H.
    intros row col dr dc Hr Hc _.
    pose proof (contribution_range b side row col dr dc).
    split; [|lia]. unfold contribution.
    destruct (get b row col =? side);
      [apply Z.pow_nonneg, PatternCount_range|].
    destruct (get b row col =? opponent_of side) eqn:E; [|lia].
    apply Z.eqb_eq in E. apply in_range_true in Hr, Hc.
    exfalso. now apply (Hno row col).
  - pose proof (sum_cells_dirs_bound (contribution b side) (- 25) 0) as H.
    assert (400 * - 25 <= sum_cells_dirs (contribution b side) <= 0); [|lia].
    replace 0 with (400 * 0) at 2 by lia. apply H.
    intros row col dr dc Hr Hc _.
    pose proof (contribution_range b side row col dr dc).
    split; [lia|]. unfold contribution.
    destruct (get b row col =? side) eqn:E.
    + apply Z.eqb_eq in E. apply in_range_true in Hr, Hc.
      exfalso. now apply (Hno row col).
    + destruct (get b row col =? opponent_of side); [|lia].
      pose proof (Z.pow_nonneg
                    (PatternCount b row col dr dc (opponent_of side)) 2
                    (proj1 (PatternCount_range _ _ _ _ _ _))).
      lia.
Qed.

(** ** More on the candidates *)

Lemma candidate_set_near (b : board) (radius : Z) (nr nc : Z) :
  In (nr, nc) (candidate_set b radius) <->
  CheckValidMove b nr nc = true /\
  exists r c,
    in_range r = true /\ in_range c = true /\ get b r c <> 0 /\
    near radius r c nr nc.
Proof.
  rewrite candidate_set_In. unfold near. split.
  - intros [row [col [dr [dc [Hrow [Hcol [Hocc [Hdr [Hdc [Hv Hm]]]]]]]]]].
    injection Hm as -> ->. split; [assumption|].
    apply In_range in Hdr, Hdc. apply in_range_In in Hrow, Hcol.
    exists row, col. repeat split; auto; lia.
  - intros [Hv [r [c [Hr [Hc [Hocc [Hn1 Hn2]]]]]]].
    exists r, c, (nr - r), (nc - c).
    rewrite <- !in_range_In, !In_range.
    replace (r + (nr - r)) with nr by lia.
    replace (c + (nc - c)) with nc by lia.
    repeat split; auto; lia.
Qed.

Lemma ValidMoveFinder_no_radius (b : board) (radius : Z) :
  radius <= 0 -> ValidMoveFinder b radius = [].
Proof.
  intros Hrad.
  destruct (ValidMoveFinder b radius) as [|[nr nc] l] eqn:E; [reflexivity|].
  assert (Hin : In (nr, nc) (ValidMoveFinder b radius))
    by (rewrite E; now left).
  apply ValidMoveFinder_In, candidate_set_near in Hin
    as [Hv [r [c [_ [_ [Hocc [Hn1 Hn2]]]]]]].
  apply CheckValidMove_parts in Hv as [_ [_ Hz]].
  assert (nr = r) by lia. assert (nc = c) by lia. subst. contradiction.
Qed.

(** X10: with a radius of 0 or less there is no candidate at all, and a
    larger radius only adds candidates. *)
Theorem ValidMoveFinder_radius (b : board) (radius radius' : Z) :
  wf_board b ->
  (radius <= 0 -> ValidMoveFinder b radius = []) /\
  (radius <= radius' ->
   forall m, In m (ValidMoveFinder b radius) ->
             In m (ValidMoveFinder b radius')).
Proof.
  intros _. split; [apply ValidMoveFinder_no_radius|].
  intros Hle [nr nc]. rewrite !ValidMoveFinder_In, !candidate_set_near.
  intros [Hv [r [c [Hr [Hc [Hocc [Hn1 Hn2]]]]]]]. split; [assumption|].
  exists r, c. unfold near. repeat split; auto; lia.
Qed.

Lemma first_flip (f : nat -> bool) (n : nat) :
  f O = true -> f n = false ->
  exists i, (i < n)%nat /\ f i = true /\ f (S i) = false.
Proof.
  intros H0. induction n as [|n IH]; intros Hn; [congruence|].
  destruct (f n) eqn:E.
  - exists n. auto.
  - destruct (IH eq_refl) as [i [Hi H]]. exists i. split; [lia|exact H].
Qed.

(** Between a point where [f] holds and one where it does not, two
    neighbours differ. *)
Lemma flip_between (f : Z -> bool) (a b : Z) :
  f a = true -> f b = false ->
  exists x y,
    Z.min a b <= x <= Z.max a b /\ Z.min a b <= y <= Z.max a b /\
    Z.abs (y - x) = 1 /\ f x = true /\ f y = false.
Proof.
  intros Ha Hb. destruct (Z.le_gt_cases a b) as [Hle|Hgt].
  - destruct (first_flip (fun i => f (a + Z.of_nat i)) (Z.to_nat (b - a)))
      as [i [Hi [H1 H2]]].
    + now rewrite Z.add_0_r.
    + replace (a + Z.of_nat (Z.to_nat (b - a))) with b by lia. exact Hb.
    + exists (a + Z.of_nat i), (a + Z.of_nat (S i)).
      repeat split; auto; lia.
  - destruct (first_flip (fun i => f (a - Z.of_nat i)) (Z.to_nat (a - b)))
      as [i [Hi [H1 H2]]].
    + now rewrite Z.sub_0_r.
    + replace (a - Z.of_nat (Z.to_nat (a - b))) with b by lia. exact Hb.
    + exists (a - Z.of_nat i), (a - Z.of_nat (S i)).
      repeat split; auto; lia.
Qed.

(** Whether every cell of the board satisfies [test]. *)
Lemma all_cells_dec (b : board) (test : Z -> bool) :
  (forall r c, in_range r = true -> in_range c = true ->
               test (get b r c) = true)
  \/ (exists r c, in_range r = true /\ in_range c = true /\
                  test (get b r c) = false).
Proof.
  destruct (existsb (fun r => existsb (fun c => negb (test (get b r c)))
                                      (range 0 BOARD_DIMENSION))
                    (range 0 BOARD_DIMENSION)) eqn:E.
  - right. apply existsb_exists in E as [r [Hr E]].
    apply existsb_exists in E as [c [Hc E]].
    apply in_range_In in Hr, Hc. apply negb_true_iff in E. eauto.
  - left. intros r c Hr Hc. apply in_range_In in Hr, Hc.
    destruct (test (get b r c)) eqn:T; [reflexivity|].
    rewrite <- E. apply existsb_exists. exists r.
    split; [assumption|]. apply existsb_exists. exists c.
    split; [assumption|]. now rewrite T.
Qed.

(** An occupied and an empty cell on the board: then some empty cell touches
    an occupied one. *)
Lemma empty_next_to_occupied (b : board) (r0 c0 r1 c1 : Z) :
  in_range r0 = true -> in_range c0 = true -> get b r0 c0 <> 0 ->
  in_range r1 = true -> in_range c1 = true -> get b r1 c1 = 0 ->
  exists r c nr nc,
    in_range r = true /\ in_range c = true /\ get b r c <> 0 /\
    in_range nr = true /\ in_range nc = true /\ get b nr nc = 0 /\
    near 1 r c nr nc.
Proof.
  intros Hr0 Hc0 Hocc Hr1 Hc1 Hemp.
  apply in_range_true in Hr0, Hc0, Hr1, Hc1.
  destruct (get b r1 c0 =? 0) eqn:Corner.
  - (* down the column [c0], from [r0] to [r1] *)
    destruct (flip_between (fun r => negb (get b r c0 =? 0)) r0 r1)
      as [x [y [Hx [Hy [Hadj [Hfx Hfy]]]]]].
    + apply negb_true_iff. now apply Z.eqb_neq.
    + now rewrite Corner.
    + apply negb_true_iff, Z.eqb_neq in Hfx.
      apply negb_false_iff, Z.eqb_eq in Hfy.
      exists x, c0, y, c0. rewrite !in_range_true. unfold near.
      repeat split; auto; lia.
  - (* along the row [r1], from [c0] to [c1] *)
    destruct (flip_between (fun c => negb (get b r1 c =? 0)) c0 c1)
      as [x [y [Hx [Hy [Hadj [Hfx Hfy]]]]]].
    + now rewrite Corner.
    + apply negb_false_iff. now apply Z.eqb_eq.
    + apply negb_true_iff, Z.eqb_neq in Hfx.
      apply negb_false_iff, Z.eqb_eq in Hfy.
      exists r1, x, r1, y. rewrite !in_range_true. unfold near.
      repeat split; auto; lia.
Qed.

Lemma no_candidates_iff (b : board) :
  ValidMoveFinder b 2 = [] <->
  (forall r c, in_range r = true -> in_range c = true -> get b r c = 0)
  \/ (forall r c, in_range r = true -> in_range c = true -> get b r c <> 0).
Proof.
  split.
  - intros Hnil.
    destruct (all_cells_dec b (fun v => v =? 0)) as [Hall|[r0 [c0 H0]]].
    { left. intros r c Hr Hc. now apply Z.eqb_eq, Hall. }
    destruct (all_cells_dec b (fun v => negb (v =? 0)))
      as [Hall|[r1 [c1 H1]]].
    { right. intros r c Hr Hc.
      now apply Z.eqb_neq, negb_true_iff, Hall. }
    exfalso. destruct H0 as [Hr0 [Hc0 H0]]. destruct H1 as [Hr1 [Hc1 H1]].
    apply Z.eqb_neq in H0. apply negb_false_iff, Z.eqb_eq in H1.
    destruct (empty_next_to_occupied b r0 c0 r1 c1)
      as [r [c [nr [nc [Hr [Hc [Hocc [Hnr [Hnc [Hz [Hn1 Hn2]]]]]]]]]]]; auto.
    assert (Hin : In (nr, nc) (ValidMoveFinder b 2)).
    { apply ValidMoveFinder_In, candidate_set_near. split.
      - apply CheckValidMove_parts. auto.
      - exists r, c. unfold near. repeat split; auto; lia. }
    rewrite Hnil in Hin. exact Hin.
  - intros H.
    destruct (ValidMoveFinder b 2) as [|[nr nc] l] eqn:E; [reflexivity|].
    assert (Hin : In (nr, nc) (ValidMoveFinder b 2))
      by (rewrite E; now left).
    apply ValidMoveFinder_In, candidate_set_near in Hin
      as [Hv [r [c [Hr [Hc [Hocc _]]]]]].
    apply CheckValidMove_parts in Hv as [Hnr [Hnc Hz]].
    exfalso. destruct H as [H|H]; [now apply Hocc, H | now apply (H nr nc)].
Qed.

(** X11: there is no candidate exactly when the board holds no stone at all
    or has no empty cell left. *)
Theorem ValidMoveFinder_empty_iff (b : board) :
  wf_board b ->
  (ValidMoveFinder b 2 = [] <->
   (forall r c, 0 <= r < BOARD_DIMENSION -> 0 <= c < BOARD_DIMENSION ->
                get b r c = 0)
   \/ (forall r c, 0 <= r < BOARD_DIMENSION -> 0 <= c < BOARD_DIMENSION ->
                   get b r c <> 0)).
Proof.
  intros _. rewrite no_candidates_iff.
  split; (intros [H|H]; [left|right]; intros r c Hr Hc; apply H);
    try (now apply in_range_true); now apply in_range_true.
Qed.

(** * Further properties of the search and of the move selection *)

Lemma max_loop_move (child : board -> score -> score -> board * score)
      (moves : list move) :
  forall b alpha beta max_eval best,
    snd (fst (max_loop child moves b alpha beta max_eval best)) = best
    \/ exists m, In m moves /\
         snd (fst (max_loop child moves b alpha beta max_eval best)) = Some m.
Proof.
  induction moves as [|[row col] rest IH]; intros b alpha beta max_eval best.
  - left. reflexivity.
  - cbn [max_loop].
    destruct (child (set_cell b row col AI) alpha beta) as [b2 eval].
    destruct (sleb beta (smax alpha eval)).
    + cbn [fst snd]. destruct (sltb max_eval eval); [right|left; reflexivity].
      exists (row, col). split; [now left|reflexivity].
    + match goal with
      | |- context [max_loop child rest ?b' ?a' ?be' ?me' ?bm'] =>
          destruct (IH b' a' be' me' bm') as [H|[m [Hm H]]]
      end.
      * rewrite H. destruct (sltb max_eval eval); [right|left; reflexivity].
        exists (row, col). split; [now left|reflexivity].
      * right. exists m. split; [now right|exact H].
Qed.

Lemma min_loop_move (child : board -> score -> score -> board * score)
      (moves : list move) :
  forall b alpha beta min_eval best,
    snd (fst (min_loop child moves b alpha beta min_eval best)) = best
    \/ exists m, In m moves /\
         snd (fst (min_loop child moves b alpha beta min_eval best)) = Some m.
Proof.
  induction moves as [|[row col] rest IH]; intros b alpha beta min_eval best.
  - left. reflexivity.
  - cbn [min_loop].
    destruct (child (set_cell b row col HUMAN) alpha beta) as [b2 eval].
    destruct (sleb (smin beta eval) alpha).
    + cbn [fst snd]. destruct (sltb eval min_eval); [right|left; reflexivity].
      exists (row, col). split; [now left|reflexivity].
    + match goal with
      | |- context [min_loop child rest ?b' ?a' ?be' ?me' ?bm'] =>
          destruct (IH b' a' be' me' bm') as [H|[m [Hm H]]]
      end.
      * rewrite H. destruct (sltb eval min_eval); [right|left; reflexivity].
        exists (row, col). split; [now left|reflexivity].
      * right. exists m. split; [now right|exact H].
Qed.

Lemma MiniMax_move_candidate (depth : nat) (b : board) (alpha beta : score)
      (mx : bool) (m : move) :
  snd (fst (MiniMax depth b alpha beta mx)) = Some m ->
  In m (ValidMoveFinder b 2).
Proof.
  destruct depth as [|d]; [discriminate|]. cbn [MiniMax].
  destruct (WinnerCheck b HUMAN || WinnerCheck b AI); [discriminate|].
  destruct mx.
  - match goal with
    | |- context [max_loop ?ch ?mv ?b' ?a' ?be' ?me' ?bm'] =>
        destruct (max_loop_move ch mv b' a' be' me' bm') as [H|[m' [Hm H]]]
    end; rewrite H; [discriminate|]. intros E. injection E as <-. exact Hm.
  - match goal with
    | |- context [min_loop ?ch ?mv ?b' ?a' ?be' ?me' ?bm'] =>
        destruct (min_loop_move ch mv b' a' be' me' bm') as [H|[m' [Hm H]]]
    end; rewrite H; [discriminate|]. intros E. injection E as <-. exact Hm.
Qed.

(** X12: a move the search returns, at any depth and with any window, is
    one of the candidates of the board it was given: on the board and
    empty. *)
Theorem MiniMax_move_is_candidate (depth : nat) (b : board)
        (alpha beta : score) (maximizing_player : bool) (row col : Z) :
  wf_board b ->
  snd (fst (MiniMax depth b alpha beta maximizing_player)) = Some (row, col) ->
  In (row, col) (ValidMoveFinder b 2) /\ CheckValidMove b row col = true.
Proof.
  intros _ H. apply MiniMax_move_candidate in H. split; [exact H|].
  apply (ValidMoveFinder_valid b 2 (row, col) H).
Qed.

(** X13: with any window [alpha < beta] the pruned score is the exhaustive
    value when that lies inside the window, and lies on the same side of
    the window when it does not. *)
Theorem MiniMax_window_sound (depth : nat) (b : board) (alpha beta : score)
        (maximizing_player : bool) :
  wf_board b -> slt alpha beta ->
  let v := snd (Exhaustive depth b maximizing_player) in
  let r := snd (MiniMax depth b alpha beta maximizing_player) in
  (sle v alpha -> sle r alpha) /\
  (slt alpha v -> slt v beta -> r = v) /\
  (sle beta v -> sle beta r).
Proof.
  intros Hwf Hlt v r.
  destruct (MiniMax_window depth b alpha beta maximizing_player Hwf Hlt)
    as [H1 [H2 H3]].
  split; [exact H1|]. split; [|exact H3].
  intros Ha Hb. apply seq_score_eq. now apply H2.
Qed.

Lemma MiniMax_full_window (depth : nat) (b : board) (mx : bool) :
  wf_board b ->
  MiniMax depth b NegInf PosInf mx =
  (b, fst (Exhaustive depth b mx), snd (Exhaustive depth b mx)).
Proof.
  intros Hwf. destruct depth as [|d]; [reflexivity|].
  cbn [MiniMax Exhaustive].
  destruct (WinnerCheck b HUMAN || WinnerCheck b AI); [reflexivity|].
  destruct mx.
  - apply max_loop_root
      with (value := fun b' => snd (Exhaustive d b' false)); auto.
    + apply child_call_ok. intros; now apply MiniMax_window.
    + intros m. apply ValidMoveFinder_valid.
    + exact I.
  - apply min_loop_root
      with (value := fun b' => snd (Exhaustive d b' true)); auto.
    + apply child_call_ok. intros; now apply MiniMax_window.
    + intros m. apply ValidMoveFinder_valid.
    + exact I.
Qed.

Lemma plain_max_ge_all (value : board -> score) (moves : list move)
      (b : board) :
  forall best bm row col,
    In (row, col) moves ->
    sle (value (set_cell b row col AI))
        (snd (plain_max value moves b best bm)).
Proof.
  induction moves as [|[r c] rest IH]; intros best bm row col Hin;
    [destruct Hin|].
  cbn [plain_max]. destruct Hin as [E|Hin].
  - injection E as -> ->.
    destruct (sltb best (value (set_cell b row col AI))) eqn:Hlt.
    + apply plain_max_ge.
    + apply sltb_false in Hlt.
      eapply sle_trans; [exact Hlt|apply plain_max_ge].
  - destruct (sltb best (value (set_cell b r c AI))); now apply IH.
Qed.

Lemma plain_min_le_all (value : board -> score) (moves : list move)
      (b : board) :
  forall best bm row col,
    In (row, col) moves ->
    sle (snd (plain_min value moves b best bm))
        (value (set_cell b row col HUMAN)).
Proof.
  induction moves as [|[r c] rest IH]; intros best bm row col Hin;
    [destruct Hin|].
  cbn [plain_min]. destruct Hin as [E|Hin].
  - injection E as -> ->.
    destruct (sltb (value (set_cell b row col HUMAN)) best) eqn:Hlt.
    + apply plain_min_le.
    + apply sltb_false in Hlt.
      eapply sle_trans; [apply plain_min_le|exact Hlt].
  - destruct (sltb (value (set_cell b r c HUMAN)) best); now apply IH.
Qed.

(** X14: searched on the whole line with no winner on the board, the
    maximizing score is at least the score of the search one ply down after
    any candidate, and the minimizing score at most. *)
Theorem MiniMax_root_dominates (depth : nat) (b : board) (row col : Z) :
  wf_board b ->
  WinnerCheck b HUMAN = false -> WinnerCheck b AI = false ->
  In (row, col) (ValidMoveFinder b 2) ->
  sle (snd (MiniMax depth (MakeMove b row col AI) NegInf PosInf false))
      (snd (MiniMax (S depth) b NegInf PosInf true))
  /\ sle (snd (MiniMax (S depth) b NegInf PosInf false))
         (snd (MiniMax depth (MakeMove b row col HUMAN) NegInf PosInf true)).
Proof.
  intros Hwf Hh Ha Hin. unfold MakeMove.
  rewrite !MiniMax_full_window by (auto; now apply wf_set_cell).
  cbn [snd Exhaustive]. rewrite Hh, Ha. cbn [orb]. split.
  - apply (plain_max_ge_all (fun b' => snd (Exhaustive depth b' false))).
    exact Hin.
  - apply (plain_min_le_all (fun b' => snd (Exhaustive depth b' true))).
    exact Hin.
Qed.

(** X15: [CriticalMoveFinder] hands the board back unchanged; a move it
    returns is a candidate that wins at once for the player, and when it
    returns none no candidate does. *)
Theorem CriticalMoveFinder_spec (b : board) (player : Z) :
  wf_board b ->
  fst (CriticalMoveFinder b player) = b /\
  match snd (CriticalMoveFinder b player) with
  | Some m =>
      In m (ValidMoveFinder b 2) /\
      WinnerCheck (MakeMove b (fst m) (snd m) player) player = true
  | None =>
      forall m, In m (ValidMoveFinder b 2) ->
                WinnerCheck (MakeMove b (fst m) (snd m) player) player = false
  end.
Proof.
  intros Hwf. rewrite CriticalMoveFinder_find by assumption. cbn [fst snd].
  split; [reflexivity|].
  destruct (find _ _) as [m|] eqn:E.
  - now apply find_some in E.
  - intros m Hm. apply (find_none _ _ E m Hm).
Qed.

Lemma MiniMax_S (d : nat) (b : board) (alpha beta : score) (mx : bool) :
  MiniMax (S d) b alpha beta mx =
  if WinnerCheck b HUMAN || WinnerCheck b AI
  then (b, None, Fin (Board_Evaluate b AI))
  else if mx
       then max_loop (fun b' a' be' =>
                        let '(b'', _, eval) := MiniMax d b' a' be' false
                        in (b'', eval))
                     (ValidMoveFinder b 2) b alpha beta NegInf None
       else min_loop (fun b' a' be' =>
                        let '(b'', _, eval) := MiniMax d b' a' be' true
                        in (b'', eval))
                     (ValidMoveFinder b 2) b alpha beta PosInf None.
Proof. reflexivity. Qed.

Lemma min_loop_not_NegInf (child : board -> score -> score -> board * score)
      (moves : list move) :
  (forall b a be, snd (child b a be) <> NegInf) ->
  forall b alpha beta min_eval best,
    min_eval <> NegInf ->
    snd (min_loop child moves b alpha beta min_eval best) <> NegInf.
Proof.
  intros Hchild.
  induction moves as [|[row col] rest IH];
    intros b alpha beta min_eval best Hme.
  - exact Hme.
  - cbn [min_loop].
    pose proof (Hchild (set_cell b row col HUMAN) alpha beta) as He.
    destruct (child (set_cell b row col HUMAN) alpha beta) as [b2 eval].
    cbn [snd] in He.
    assert (Hnew : (if sltb eval min_eval then eval else min_eval) <> NegInf)
      by (destruct (sltb eval min_eval); assumption).
    destruct (sleb (smin beta eval) alpha); [exact Hnew|].
    now apply IH.
Qed.

Lemma depth1_min_not_NegInf (b : board) (alpha beta : score) :
  snd (MiniMax 1 b alpha beta false) <> NegInf.
Proof.
  rewrite MiniMax_S.
  destruct (WinnerCheck b HUMAN || WinnerCheck b AI); [discriminate|].
  apply min_loop_not_NegInf; [|discriminate].
  intros b' a be. cbn [MiniMax snd]. discriminate.
Qed.

(** Two plies deep, with no winner and a candidate, the maximizing search
    has a move. *)
Lemma MiniMax2_some (b : board) (alpha beta : score) :
  WinnerCheck b HUMAN = false -> WinnerCheck b AI = false ->
  ValidMoveFinder b 2 <> [] ->
  exists m, snd (fst (MiniMax 2 b alpha beta true)) = Some m.
Proof.
  intros Hh Ha Hne. rewrite MiniMax_S, Hh, Ha. cbn [orb].
  destruct (ValidMoveFinder b 2) as [|[row col] rest]; [congruence|].
  cbn [max_loop].
  pose proof (depth1_min_not_NegInf (set_cell b row col AI) alpha beta) as He.
  destruct (MiniMax 1 (set_cell b row col AI) alpha beta false)
    as [[b2 mv] eval].
  cbn [snd] in He.
  assert (Hlt : sltb NegInf eval = true)
    by (destruct eval; [exfalso; now apply He | reflexivity | reflexivity]).
  rewrite Hlt.
  destruct (sleb beta (smax alpha eval)); [cbn [fst snd]; eauto|].
  match goal with
  | |- context [max_loop ?ch ?mv' ?b' ?a' ?be' ?me' ?bm'] =>
      destruct (max_loop_move ch mv' b' a' be' me' bm') as [H|[m [_ H]]]
  end; rewrite H; eauto.
Qed.

Lemma AI_move_unfold (b : board) :
  wf_board b ->
  AI_move b =
  (b, match find (fun m : move =>
                    WinnerCheck (MakeMove b (fst m) (snd m) AI) AI)
                 (ValidMoveFinder b 2) with
      | Some m => Some m
      | None =>
          match find (fun m : move =>
                        WinnerCheck (MakeMove b (fst m) (snd m) HUMAN) HUMAN)
                     (ValidMoveFinder b 2) with
          | Some m => Some m
          | None => snd (fst (MiniMax 2 b NegInf PosInf true))
          end
      end).
Proof.
  intros Hwf. unfold AI_move, AI_move_with.
  rewrite CriticalMoveFinder_find by assumption.
  destruct (find _ _) as [m|]; [reflexivity|].
  rewrite CriticalMoveFinder_find by assumption.
  destruct (find _ _) as [m|]; [reflexivity|].
  pose proof (MiniMax_board 2 b NegInf PosInf true Hwf) as Hb.
  destruct (MiniMax 2 b NegInf PosInf true) as [[b3 mv] sc].
  cbn [fst snd] in *. now subst b3.
Qed.

Lemma AI_move_board (b : board) : wf_board b -> fst (AI_move b) = b.
Proof. intros Hwf. now rewrite AI_move_unfold. Qed.

Lemma AI_move_candidate (b : board) (m : move) :
  wf_board b -> snd (AI_move b) = Some m -> In m (ValidMoveFinder b 2).
Proof.
  intros Hwf. rewrite AI_move_unfold by assumption. cbn [snd].
  destruct (find (fun m0 : move =>
               WinnerCheck (MakeMove b (fst m0) (snd m0) AI) AI)
            (ValidMoveFinder b 2)) as [m1|] eqn:E1.
  - intros [= <-]. now apply find_some in E1.
  - destruct (find (fun m0 : move =>
               WinnerCheck (MakeMove b (fst m0) (snd m0) HUMAN) HUMAN)
            (ValidMoveFinder b 2)) as [m2|] eqn:E2.
    + intros [= <-]. now apply find_some in E2.
    + apply MiniMax_move_candidate.
Qed.

Lemma find_first_holds {A} (f : A -> bool) (x : A) (l : list A) :
  f x = true -> find f (x :: l) = Some x.
Proof. intros H. cbn [find]. now rewrite H. Qed.

Lemma AI_move_some (b : board) :
  wf_board b -> ValidMoveFinder b 2 <> [] -> exists m, snd (AI_move b) = Some m.
Proof.
  intros Hwf Hne. rewrite AI_move_unfold by assumption. cbn [snd].
  destruct (find (fun m0 : move =>
               WinnerCheck (MakeMove b (fst m0) (snd m0) AI) AI)
            (ValidMoveFinder b 2)) as [m1|] eqn:E1; [eauto|].
  destruct (find (fun m0 : move =>
               WinnerCheck (MakeMove b (fst m0) (snd m0) HUMAN) HUMAN)
            (ValidMoveFinder b 2)) as [m2|] eqn:E2; [eauto|].
  destruct (WinnerCheck b AI) eqn:Ha.
  { exfalso. destruct (ValidMoveFinder b 2) as [|m rest] eqn:Ev; [congruence|].
    assert (Hv : CheckValidMove b (fst m) (snd m) = true)
      by (apply (ValidMoveFinder_valid b 2); rewrite Ev; now left).
    rewrite find_first_holds in E1; [discriminate|].
    apply WinnerCheck_MakeMove_keep; auto. discriminate. }
  destruct (WinnerCheck b HUMAN) eqn:Hh.
  { exfalso. destruct (ValidMoveFinder b 2) as [|m rest] eqn:Ev; [congruence|].
    assert (Hv : CheckValidMove b (fst m) (snd m) = true)
      by (apply (ValidMoveFinder_valid b 2); rewrite Ev; now left).
    rewrite find_first_holds in E2; [discriminate|].
    apply WinnerCheck_MakeMove_keep; auto. discriminate. }
  now apply MiniMax2_some.
Qed.

Lemma AI_move_none (b : board) :
  wf_board b -> ValidMoveFinder b 2 = [] -> snd (AI_move b) = None.
Proof.
  intros Hwf Hnil. rewrite AI_move_unfold by assumption. cbn [snd].
  rewrite MiniMax_S, Hnil. cbn [find].
  destruct (WinnerCheck b HUMAN || WinnerCheck b AI); reflexivity.
Qed.

(** X16: the move [AI_move] returns is a candidate of the board, so it is on
    the board and the cell is empty; and the board comes back unchanged. *)
Theorem AI_move_valid (b b' : board) (row col : Z) :
  wf_board b ->
  AI_move b = (b', Some (row, col)) ->
  b' = b /\ In (row, col) (ValidMoveFinder b 2) /\
  CheckValidMove b row col = true.
Proof.
  intros Hwf H.
  pose proof (AI_move_board b Hwf) as Hb.
  pose proof (AI_move_candidate b (row, col) Hwf) as Hc.
  rewrite H in Hb, Hc. cbn [fst snd] in Hb, Hc.
  specialize (Hc eq_refl). split; [auto|]. split; [exact Hc|].
  apply (ValidMoveFinder_valid b 2 (row, col) Hc).
Qed.

(** X17: [AI_move] answers [None] exactly when there is no candidate; with
    a candidate it always has a move. *)
Theorem AI_move_none_iff (b : board) :
  wf_board b ->
  (snd (AI_move b) = None <-> ValidMoveFinder b 2 = []).
Proof.
  intros Hwf. split.
  - intros Hn. destruct (ValidMoveFinder b 2) as [|m rest] eqn:E;
      [reflexivity|].
    destruct (AI_move_some b Hwf) as [m' Hm']; [rewrite E; discriminate|].
    congruence.
  - now apply AI_move_none.
Qed.

(** X18: on a board where a side already has five in a row, [AI_move]
    still answers with a candidate whenever there is one, and does so
    whatever is put in the place of the search: every candidate then passes
    for a winning or a blocking move. *)
Theorem AI_move_after_win (b : board) :
  wf_board b ->
  WinnerCheck b HUMAN = true \/ WinnerCheck b AI = true ->
  ValidMoveFinder b 2 <> [] ->
  exists m,
    In m (ValidMoveFinder b 2) /\
    AI_move b = (b, Some m) /\
    forall search, AI_move_with search b = (b, Some m).
Proof.
  intros Hwf Hwin Hne.
  assert (Hany : exists m, In m (ValidMoveFinder b 2) /\
                   forall search, AI_move_with search b = (b, Some m)).
  { unfold AI_move_with.
    rewrite CriticalMoveFinder_find by assumption.
    destruct (find (fun m0 : move =>
               WinnerCheck (MakeMove b (fst m0) (snd m0) AI) AI)
            (ValidMoveFinder b 2)) as [m1|] eqn:E1.
    { exists m1. split; [now apply find_some in E1|reflexivity]. }
    rewrite CriticalMoveFinder_find by assumption.
    destruct (find (fun m0 : move =>
               WinnerCheck (MakeMove b (fst m0) (snd m0) HUMAN) HUMAN)
            (ValidMoveFinder b 2)) as [m2|] eqn:E2.
    { exists m2. split; [now apply find_some in E2|reflexivity]. }
    exfalso.
    destruct (ValidMoveFinder b 2) as [|m rest] eqn:Ev; [congruence|].
    assert (Hv : CheckValidMove b (fst m) (snd m) = true)
      by (apply (ValidMoveFinder_valid b 2); rewrite Ev; now left).
    destruct Hwin as [Hh|Ha].
    - rewrite find_first_holds in E2; [discriminate|].
      apply WinnerCheck_MakeMove_keep; auto. discriminate.
    - rewrite find_first_holds in E1; [discriminate|].
      apply WinnerCheck_MakeMove_keep; auto. discriminate. }
  destruct Hany as [m [Hin Hany]]. exists m.
  split; [assumption|]. split; [apply Hany|exact Hany].
Qed.

(** * The window and the game loop *)

Lemma CELL_DIMENSION_value : CELL_DIMENSION = 60.
Proof. reflexivity. Qed.

(** X19: a click inside the window always falls on a cell of the board, and
    a pixel position at or beyond the window's edge never does. *)
Theorem cell_of_pixel_in_bounds (x y : Z) :
  0 <= x -> 0 <= y ->
  (x < WINDOW_DIMENSION /\ y < WINDOW_DIMENSION <->
   0 <= fst (cell_of_pixel x y) < BOARD_DIMENSION /\
   0 <= snd (cell_of_pixel x y) < BOARD_DIMENSION).
Proof.
  intros Hx Hy. unfold cell_of_pixel. cbn [fst snd].
  rewrite CELL_DIMENSION_value. unfold WINDOW_DIMENSION, BOARD_DIMENSION.
  pose proof (Z.div_mod x 60 ltac:(lia)).
  pose proof (Z.mod_pos_bound x 60 ltac:(lia)).
  pose proof (Z.div_mod y 60 ltac:(lia)).
  pose proof (Z.mod_pos_bound y 60 ltac:(lia)).
  lia.
Qed.

(** X20: the piece drawn for a cell lies inside the square of that cell:
    every pixel within the radius of its centre, in each coordinate, is
    mapped back to the cell by the click mapping. *)
Theorem PlayerPiece_inside_cell (row col : Z) (color : Z * Z * Z) (x y : Z) :
  Z.abs (x - circle_x (PlayerPiece row col color))
    <= circle_radius (PlayerPiece row col color) ->
  Z.abs (y - circle_y (PlayerPiece row col color))
    <= circle_radius (PlayerPiece row col color) ->
  cell_of_pixel x y = (row, col).
Proof.
  unfold PlayerPiece, cell_of_pixel.
  cbn [circle_x circle_y circle_radius].
  rewrite CELL_DIMENSION_value. change (60 / 2) with 30.
  intros Hx Hy. f_equal.
  - symmetry. apply (Z.div_unique y 60 row (y - row * 60)); lia.
  - symmetry. apply (Z.div_unique x 60 col (x - col * 60)); lia.
Qed.

(** ** One event, one engine turn *)

Lemma handle_event_cases (g g' : game) (e : event) :
  handle_event g e = Some g' ->
  g' = g \/
  (game_over g = false /\ turn g = HUMAN /\
   exists row col,
     CheckValidMove (game_board g) row col = true /\
     g' = {| game_board := MakeMove (game_board g) row col HUMAN;
             game_over :=
               WinnerCheck (MakeMove (game_board g) row col HUMAN) HUMAN;
             turn := AI |}).
Proof.
  destruct e as [|x y|]; cbn [handle_event]; try discriminate.
  - destruct (game_over g) eqn:Hover; cbn [negb andb].
    + intros [= <-]. now left.
    + destruct (turn g =? HUMAN) eqn:Hturn; [|intros [= <-]; now left].
      apply Z.eqb_eq in Hturn.
      destruct (cell_of_pixel x y) as [row col].
      destruct (CheckValidMove (game_board g) row col) eqn:Hv;
        [|intros [= <-]; now left].
      intros [= <-]. right. repeat split; auto. exists row, col.
      split; [assumption|].
      now destruct (WinnerCheck (MakeMove (game_board g) row col HUMAN) HUMAN).
  - intros [= <-]. now left.
Qed.

Lemma handle_event_ignored (g : game) (e : event) :
  e <> QUIT -> game_over g = true \/ turn g <> HUMAN ->
  handle_event g e = Some g.
Proof.
  intros He H. destruct e as [|x y|]; [contradiction| |reflexivity].
  cbn [handle_event]. destruct H as [H|H].
  - now rewrite H.
  - apply Z.eqb_neq in H. rewrite H. now rewrite andb_false_r.
Qed.

Lemma handle_events_ignored (events : list event) (g : game) :
  ~ In QUIT events -> game_over g = true \/ turn g <> HUMAN ->
  handle_events g events = Some g.
Proof.
  intros Hq H. induction events as [|e rest IH]; [reflexivity|].
  cbn [handle_events]. rewrite handle_event_ignored; auto.
  - apply IH. intros Hin. apply Hq. now right.
  - intros ->. apply Hq. now left.
Qed.

Lemma handle_events_no_quit (events : list event) :
  forall g g', handle_events g events = Some g' -> ~ In QUIT events.
Proof.
  induction events as [|e rest IH]; intros g g' H; [intros []|].
  cbn [handle_events] in H. destruct (handle_event g e) as [g1|] eqn:E;
    [|discriminate].
  intros [->|Hin]; [discriminate|]. exact (IH g1 g' H Hin).
Qed.

Lemma handle_events_cases (events : list event) :
  forall g g',
    handle_events g events = Some g' ->
    g' = g \/
    (game_over g = false /\ turn g = HUMAN /\
     exists row col,
       CheckValidMove (game_board g) row col = true /\
       g' = {| game_board := MakeMove (game_board g) row col HUMAN;
               game_over :=
                 WinnerCheck (MakeMove (game_board g) row col HUMAN) HUMAN;
               turn := AI |}).
Proof.
  induction events as [|e rest IH]; intros g g' H.
  - injection H as <-. now left.
  - pose proof (handle_events_no_quit _ _ _ H) as Hq.
    cbn [handle_events] in H.
    destruct (handle_event g e) as [g1|] eqn:E; [|discriminate].
    destruct (handle_event_cases _ _ _ E) as [->|[Ho [Ht [row [col [Hv ->]]]]]].
    + now apply IH.
    + rewrite handle_events_ignored in H.
      * injection H as <-. right. repeat split; auto. eauto.
      * intros Hin. apply Hq. now right.
      * right. cbn [turn]. discriminate.
Qed.

Lemma ai_turn_cases (g : game) :
  wf_board (game_board g) ->
  (ai_turn g = g /\
   (game_over g = true \/ turn g <> AI \/
    ValidMoveFinder (game_board g) 2 = []))
  \/ (game_over g = false /\ turn g = AI /\
      exists row col,
        In (row, col) (ValidMoveFinder (game_board g) 2) /\
        CheckValidMove (game_board g) row col = true /\
        AI_move (game_board g) = (game_board g, Some (row, col)) /\
        ai_turn g =
        {| game_board := MakeMove (game_board g) row col AI;
           game_over := WinnerCheck (MakeMove (game_board g) row col AI) AI;
           turn := HUMAN |}).
Proof.
  intros Hwf. unfold ai_turn.
  destruct (turn g =? AI) eqn:Ht; cbn [andb];
    [|left; split; [reflexivity|]; right; left; now apply Z.eqb_neq].
  apply Z.eqb_eq in Ht.
  destruct (game_over g) eqn:Ho; cbn [negb]; [left; auto|].
  pose proof (AI_move_board (game_board g) Hwf) as Hb.
  pose proof (AI_move_candidate (game_board g)) as Hc.
  pose proof (AI_move_none (game_board g) Hwf) as Hn.
  pose proof (AI_move_some (game_board g) Hwf) as Hs.
  destruct (AI_move (game_board g)) as [b mv]. cbn [fst snd] in *. subst b.
  destruct mv as [[row col]|].
  - right. repeat split; auto. exists row, col.
    specialize (Hc (row, col) Hwf eq_refl).
    split; [exact Hc|]. split; [apply (ValidMoveFinder_valid _ 2 _ Hc)|].
    split; [reflexivity|].
    now destruct (WinnerCheck (MakeMove (game_board g) row col AI) AI).
  - left. split.
    + destruct g; cbn in *; congruence.
    + right. right.
      destruct (ValidMoveFinder (game_board g) 2) eqn:E; [reflexivity|].
      destruct Hs as [m' Hm]; [discriminate|discriminate].
Qed.

(** ** Frames *)

Lemma handle_events_None_iff (events : list event) :
  forall g, handle_events g events = None <-> In QUIT events.
Proof.
  induction events as [|e rest IH]; intros g; cbn [handle_events].
  - split; [discriminate|intros []].
  - destruct (handle_event g e) as [g1|] eqn:E.
    + rewrite IH. split; [now right|].
      intros [->|H]; [discriminate|exact H].
    + split; [|reflexivity]. intros _. left.
      destruct e as [|x y|]; [reflexivity| |discriminate].
      cbn [handle_event] in E.
      destruct (negb (game_over g) && (turn g =? HUMAN)); [|discriminate].
      destruct (cell_of_pixel x y) as [row col].
      destruct (CheckValidMove (game_board g) row col); discriminate.
Qed.

(** X21: a frame ends the program exactly when one of its events is
    [QUIT]. *)
Theorem frame_exits_iff_quit (g : game) (events : list event) :
  frame g events = None <-> In QUIT events.
Proof.
  unfold frame. rewrite <- (handle_events_None_iff events g).
  destruct (handle_events g events); split; congruence.
Qed.

(** X22: the events of one frame place at most one human stone: either the
    state is untouched, or it was the human's turn in a running game and
    one valid cell got a human stone, after which the turn is the engine's
    and the flag says whether the human has five. *)
Theorem one_human_move_per_frame (g g' : game) (events : list event) :
  handle_events g events = Some g' ->
  g' = g \/
  (game_over g = false /\ turn g = HUMAN /\
   exists row col,
     CheckValidMove (game_board g) row col = true /\
     g' = {| game_board := MakeMove (game_board g) row col HUMAN;
             game_over :=
               WinnerCheck (MakeMove (game_board g) row col HUMAN) HUMAN;
             turn := AI |}).
Proof. apply handle_events_cases. Qed.

(** X23: once the game is over nothing moves any more: a frame without
    [QUIT] leaves the state as it is. *)
Theorem game_over_is_final (g : game) (events : list event) :
  game_over g = true -> ~ In QUIT events -> frame g events = Some g.
Proof.
  intros Ho Hq. unfold frame.
  rewrite handle_events_ignored by auto.
  unfold ai_turn. rewrite Ho. now rewrite andb_false_r.
Qed.

Lemma MakeMove_keeps_stones (b : board) (row col p : Z) :
  wf_board b -> CheckValidMove b row col = true ->
  forall r c, in_range r = true -> in_range c = true ->
              get b r c <> 0 -> get (MakeMove b row col p) r c = get b r c.
Proof.
  intros Hwf Hv r c Hr Hc Hocc.
  apply CheckValidMove_parts in Hv as [Hrow [Hcol Hz]].
  rewrite get_MakeMove by assumption.
  destruct ((r =? row) && (c =? col)) eqn:E; [|reflexivity].
  apply andb_true_iff in E as [E1 E2]. apply Z.eqb_eq in E1, E2.
  subst. contradiction.
Qed.

Lemma frame_cases (g g' : game) (events : list event) :
  frame g events = Some g' ->
  exists g1, handle_events g events = Some g1 /\ g' = ai_turn g1.
Proof.
  unfold frame. destruct (handle_events g events) as [g1|]; [|discriminate].
  intros [= <-]. eauto.
Qed.

(** X24: a frame never removes or changes a stone: the board keeps its
    shape and every occupied cell reads as before. *)
Theorem frame_keeps_stones (g g' : game) (events : list event) :
  wf_board (game_board g) ->
  frame g events = Some g' ->
  wf_board (game_board g') /\
  forall r c,
    0 <= r < BOARD_DIMENSION -> 0 <= c < BOARD_DIMENSION ->
    get (game_board g) r c <> 0 ->
    get (game_board g') r c = get (game_board g) r c.
Proof.
  intros Hwf H. destruct (frame_cases _ _ _ H) as [g1 [H1 ->]].
  assert (Hstep1 : wf_board (game_board g1) /\
            forall r c, in_range r = true -> in_range c = true ->
                        get (game_board g) r c <> 0 ->
                        get (game_board g1) r c = get (game_board g) r c).
  { destruct (handle_events_cases _ _ _ H1)
      as [->|[_ [_ [row [col [Hv ->]]]]]]; [auto|].
    cbn [game_board]. split; [now apply wf_set_cell|].
    now apply MakeMove_keeps_stones. }
  destruct Hstep1 as [Hwf1 Hk1].
  assert (Hstep2 : wf_board (game_board (ai_turn g1)) /\
            forall r c, in_range r = true -> in_range c = true ->
                        get (game_board g1) r c <> 0 ->
                        get (game_board (ai_turn g1)) r c
                        = get (game_board g1) r c).
  { destruct (ai_turn_cases g1 Hwf1)
      as [[-> _]|[_ [_ [row [col [_ [Hv [_ ->]]]]]]]]; [auto|].
    cbn [game_board]. split; [now apply wf_set_cell|].
    now apply MakeMove_keeps_stones. }
  destruct Hstep2 as [Hwf2 Hk2]. split; [assumption|].
  intros r c Hr Hc Hocc. apply in_range_true in Hr, Hc.
  rewrite Hk2; auto. rewrite Hk1; auto.
Qed.

(** X25: when some candidate wins at once for the engine, the engine's
    turn ends the game: the engine has five in a row and the flag is set. *)
Theorem ai_turn_takes_win (g : game) :
  wf_board (game_board g) ->
  turn g = AI -> game_over g = false ->
  (exists m, In m (ValidMoveFinder (game_board g) 2) /\
             WinnerCheck (MakeMove (game_board g) (fst m) (snd m) AI) AI
             = true) ->
  WinnerCheck (game_board (ai_turn g)) AI = true /\
  game_over (ai_turn g) = true /\
  turn (ai_turn g) = HUMAN.
Proof.
  intros Hwf Ht Ho [m [Hin Hw]].
  pose proof (AI_move_unfold (game_board g) Hwf) as Hu.
  destruct (find (fun m0 : move =>
                    WinnerCheck (MakeMove (game_board g) (fst m0) (snd m0) AI)
                                AI)
                 (ValidMoveFinder (game_board g) 2)) as [[row col]|] eqn:E.
  - apply find_some in E as [_ Hw']. cbn [fst snd] in Hw'.
    unfold ai_turn. rewrite Ht, Ho, Hu. cbn [andb negb Z.eqb Pos.eqb].
    cbn [game_board game_over turn]. rewrite Hw'. auto.
  - rewrite (find_none _ _ E m Hin) in Hw. discriminate.
Qed.

(** X26: when no candidate wins for the engine but some candidate would win
    at once for the human, the engine puts its stone on such a cell. *)
Theorem ai_turn_blocks (g : game) :
  wf_board (game_board g) ->
  turn g = AI -> game_over g = false ->
  (forall m, In m (ValidMoveFinder (game_board g) 2) ->
             WinnerCheck (MakeMove (game_board g) (fst m) (snd m) AI) AI
             = false) ->
  (exists m, In m (ValidMoveFinder (game_board g) 2) /\
             WinnerCheck (MakeMove (game_board g) (fst m) (snd m) HUMAN) HUMAN
             = true) ->
  exists row col,
    In (row, col) (ValidMoveFinder (game_board g) 2) /\
    WinnerCheck (MakeMove (game_board g) row col HUMAN) HUMAN = true /\
    game_board (ai_turn g) = MakeMove (game_board g) row col AI /\
    turn (ai_turn g) = HUMAN.
Proof.
  intros Hwf Ht Ho Hno [m [Hin Hw]].
  pose proof (AI_move_unfold (game_board g) Hwf) as Hu.
  destruct (find (fun m0 : move =>
                    WinnerCheck (MakeMove (game_board g) (fst m0) (snd m0) AI)
                                AI)
                 (ValidMoveFinder (game_board g) 2)) as [m1|] eqn:E1.
  { apply find_some in E1 as [Hin1 Hw1]. rewrite (Hno m1 Hin1) in Hw1.
    discriminate. }
  destruct (find (fun m0 : move =>
                    WinnerCheck
                      (MakeMove (game_board g) (fst m0) (snd m0) HUMAN) HUMAN)
                 (ValidMoveFinder (game_board g) 2)) as [[row col]|] eqn:E2.
  - apply find_some in E2 as [Hin2 Hw2]. cbn [fst snd] in Hw2.
    exists row, col. split; [assumption|]. split; [assumption|].
    unfold ai_turn. rewrite Ht, Ho, Hu. cbn [andb negb Z.eqb Pos.eqb].
    cbn [game_board turn]. auto.
  - rewrite (find_none _ _ E2 m Hin) in Hw. discriminate.
Qed.

(** ** What every reachable state satisfies *)

Lemma game_invariant_new : game_invariant new_game.
Proof.
  unfold game_invariant, new_game. cbn [game_board game_over turn].
  change (BOARD_DIMENSION / 2) with 5.
  assert (Hwf : wf_board (MakeMove Initialize_Board 5 5 AI))
    by (apply wf_set_cell, wf_Initialize_Board).
  split; [exact Hwf|]. split.
  { intros r c Hr Hc.
    rewrite get_MakeMove by (auto using wf_Initialize_Board).
    rewrite get_Initialize_Board. destruct ((r =? 5) && (c =? 5)); auto. }
  split; [reflexivity|]. split; [now left|].
  split; [vm_compute; reflexivity|]. split; [vm_compute; reflexivity|].
  discriminate.
Qed.

(** A stone of [mover] on a valid cell, in a running game. *)
Lemma game_invariant_move (g : game) (row col mover other : Z) :
  (mover = HUMAN /\ other = AI) \/ (mover = AI /\ other = HUMAN) ->
  game_invariant g -> game_over g = false ->
  CheckValidMove (game_board g) row col = true ->
  game_invariant
    {| game_board := MakeMove (game_board g) row col mover;
       game_over := WinnerCheck (MakeMove (game_board g) row col mover) mover;
       turn := other |}.
Proof.
  intros Hsides [Hwf [Hcells [Hcentre [Hturn [Hflag [Hone Hlast]]]]]] Ho Hv.
  rewrite Ho in Hflag. symmetry in Hflag.
  apply orb_false_iff in Hflag as [Hh Ha].
  pose proof Hv as Hv'. apply CheckValidMove_parts in Hv' as [Hr [Hc Hz]].
  assert (Hother :
            WinnerCheck (MakeMove (game_board g) row col mover) other = false).
  { destruct Hsides as [[-> ->]|[-> ->]];
      rewrite WinnerCheck_MakeMove_other; auto; discriminate. }
  unfold game_invariant. cbn [game_board game_over turn].
  split; [now apply wf_set_cell|]. split.
  { intros r c Hr' Hc'. rewrite get_MakeMove by assumption.
    destruct ((r =? row) && (c =? col)); [|now apply Hcells].
    destruct Hsides as [[-> _]|[-> _]]; auto. }
  split.
  { rewrite MakeMove_keeps_stones; auto; try reflexivity.
    rewrite Hcentre. discriminate. }
  split; [destruct Hsides as [[_ ->]|[_ ->]]; auto|].
  destruct Hsides as [[-> ->]|[-> ->]]; rewrite Hother.
  - rewrite orb_false_r, andb_false_r. cbn [Z.eqb Pos.eqb]. auto.
  - cbn [orb andb Z.eqb Pos.eqb]. auto.
Qed.

Lemma game_invariant_frame (g g' : game) (events : list event) :
  game_invariant g -> frame g events = Some g' -> game_invariant g'.
Proof.
  intros Hinv H. destruct (frame_cases _ _ _ H) as [g1 [H1 ->]].
  assert (Hinv1 : game_invariant g1).
  { destruct (handle_events_cases _ _ _ H1)
      as [->|[Ho [_ [row [col [Hv ->]]]]]]; [assumption|].
    apply game_invariant_move with (mover := HUMAN) (other := AI); auto. }
  destruct (ai_turn_cases g1 ltac:(apply Hinv1))
    as [[-> _]|[Ho [_ [row [col [_ [Hv [_ ->]]]]]]]]; [assumption|].
  apply game_invariant_move with (mover := AI) (other := HUMAN); auto.
Qed.

Lemma reachable_invariant (g : game) : reachable g -> game_invariant g.
Proof.
  induction 1 as [|g events g' _ IH Hf].
  - apply game_invariant_new.
  - exact (game_invariant_frame _ _ _ IH Hf).
Qed.

(** After the engine's turn a running game waits for the human, unless the
    engine found no candidate. *)
Lemma ai_turn_waits (g : game) :
  wf_board (game_board g) ->
  game_over (ai_turn g) = false ->
  turn (ai_turn g) = HUMAN \/
  (turn (ai_turn g) <> AI) \/
  ValidMoveFinder (game_board (ai_turn g)) 2 = [].
Proof.
  intros Hwf Ho.
  destruct (ai_turn_cases g Hwf)
    as [[E [H|[H|H]]]|[_ [_ [row [col [_ [_ [_ E]]]]]]]];
    rewrite E in *; cbn [turn]; auto.
  congruence.
Qed.

(** X27: in every state the game can reach the board is 10 x 10, each cell
    is empty or holds a human or an engine stone, the engine's opening
    stone is on the centre cell, and the turn is the human's or the
    engine's. *)
Theorem reachable_well_formed (g : game) :
  reachable g ->
  wf_board (game_board g) /\
  (forall r c, 0 <= r < BOARD_DIMENSION -> 0 <= c < BOARD_DIMENSION ->
               get (game_board g) r c = 0 \/
               get (game_board g) r c = HUMAN \/
               get (game_board g) r c = AI) /\
  get (game_board g) (BOARD_DIMENSION / 2) (BOARD_DIMENSION / 2) = AI /\
  (turn g = HUMAN \/ turn g = AI).
Proof.
  intros Hr.
  destruct (reachable_invariant g Hr) as [Hwf [Hcells [Hcentre [Hturn _]]]].
  split; [assumption|]. split; [|auto].
  intros r c Hr' Hc'. apply Hcells; now apply in_range_true.
Qed.

(** X28: in every reachable state the flag [game_over] is set exactly when
    a side has five in a row; never both sides have; and the side that has
    is the one that moved last. *)
Theorem reachable_game_over_iff_win (g : game) :
  reachable g ->
  (game_over g = true <->
   WinnerCheck (game_board g) HUMAN = true \/
   WinnerCheck (game_board g) AI = true) /\
  ~ (WinnerCheck (game_board g) HUMAN = true /\
     WinnerCheck (game_board g) AI = true) /\
  (WinnerCheck (game_board g) HUMAN = true -> turn g = AI) /\
  (WinnerCheck (game_board g) AI = true -> turn g = HUMAN).
Proof.
  intros Hr.
  destruct (reachable_invariant g Hr)
    as [_ [_ [_ [Hturn [Hflag [Hone Hlast]]]]]].
  rewrite Hflag, orb_true_iff. split; [tauto|].
  apply andb_false_iff in Hone.
  split; [intros [H1 H2]; destruct Hone; congruence|].
  split; intros Hw.
  - assert (Ho : game_over g = true) by (rewrite Hflag, Hw; reflexivity).
    specialize (Hlast Ho). destruct Hturn as [Ht|Ht]; [|assumption].
    rewrite Ht in Hlast. change (HUMAN =? AI) with false in Hlast.
    destruct Hone; congruence.
  - assert (Ho : game_over g = true)
      by (rewrite Hflag, Hw; apply orb_true_r).
    specialize (Hlast Ho). destruct Hturn as [Ht|Ht]; [assumption|].
    rewrite Ht in Hlast. change (AI =? AI) with true in Hlast.
    destruct Hone; congruence.
Qed.

(** X29: between frames a running game always waits for the human, unless
    the board is full. *)
Theorem reachable_waits_for_human (g : game) :
  reachable g ->
  game_over g = false ->
  turn g = HUMAN \/
  (forall r c, 0 <= r < BOARD_DIMENSION -> 0 <= c < BOARD_DIMENSION ->
               get (game_board g) r c <> 0).
Proof.
  intros Hr Ho. inversion Hr as [Hnew|g0 events g' Hr0 Hf Heq].
  - left. reflexivity.
  - subst g'. destruct (frame_cases _ _ _ Hf) as [g1 [H1 ->]].
    assert (Hwf1 : wf_board (game_board g1)).
    { pose proof (reachable_invariant g0 Hr0) as Hinv0.
      destruct (handle_events_cases _ _ _ H1)
        as [->|[_ [_ [row [col [_ ->]]]]]]; [apply Hinv0|].
      apply wf_set_cell, Hinv0. }
    destruct (reachable_invariant _ Hr) as [_ [_ [Hcentre [Hturn _]]]].
    destruct (ai_turn_waits g1 Hwf1 Ho) as [H|[H|H]]; [now left| |].
    + left. destruct Hturn; [assumption|contradiction].
    + right. apply no_candidates_iff in H as [H|H].
      * exfalso. rewrite (H 5 5) in Hcentre by reflexivity. discriminate.
      * intros r c Hr' Hc'. apply H; now apply in_range_true.
Qed.

(** ** The pieces drawn *)

Lemma NoDup_range (lo hi : Z) : NoDup (range lo hi).
Proof.
  unfold range. apply NoDup_map_NoDup_ForallPairs; [|apply seq_NoDup].
  intros x y _ _ H. lia.
Qed.

Lemma NoDup_flat_map {A B} (f : A -> list B) (l : list A) :
  NoDup l ->
  (forall x, In x l -> NoDup (f x)) ->
  (forall x y z, In x l -> In y l -> In z (f x) -> In z (f y) -> x = y) ->
  NoDup (flat_map f l).
Proof.
  induction l as [|a l IH]; intros Hnd Heach Hdisj; cbn [flat_map].
  - constructor.
  - inversion Hnd as [|a' l' Hnotin Hnd']; subst.
    apply NoDup_app.
    + apply Heach. now left.
    + apply IH; auto.
      * intros x Hx. apply Heach. now right.
      * intros x y z Hx Hy. apply Hdisj; now right.
    + intros z Hz Hin. apply in_flat_map in Hin as [y [Hy Hzy]].
      assert (a = y) by (apply (Hdisj a y z); auto; [now left|now right]).
      subst. contradiction.
Qed.

Lemma In_render_row (b : board) (row : Z) (c : circle) :
  In c (flat_map (fun col =>
          if get b row col =? HUMAN then [PlayerPiece row col BLACK]
          else if get b row col =? AI then [PlayerPiece row col WHITE]
          else [])
          (range 0 BOARD_DIMENSION)) <->
  exists col,
    in_range col = true /\
    ((get b row col = HUMAN /\ c = PlayerPiece row col BLACK) \/
     (get b row col = AI /\ c = PlayerPiece row col WHITE)).
Proof.
  rewrite in_flat_map. split.
  - intros [col [Hcol Hin]]. exists col. split; [now apply in_range_In|].
    destruct (get b row col =? HUMAN) eqn:E1.
    + apply Z.eqb_eq in E1. destruct Hin as [<-|[]]. now left.
    + destruct (get b row col =? AI) eqn:E2; [|destruct Hin].
      apply Z.eqb_eq in E2. destruct Hin as [<-|[]]. now right.
  - intros [col [Hcol [[Hg ->]|[Hg ->]]]]; exists col;
      (split; [now apply in_range_In|]); rewrite Hg; now left.
Qed.

(** X30: each frame draws exactly the stones on the board: a black piece
    for every human stone, a white one for every engine stone, nothing for
    an empty cell, and no piece twice. *)
Theorem render_pieces_spec (b : board) :
  wf_board b ->
  (forall c,
      In c (render_pieces b) <->
      exists row col,
        0 <= row < BOARD_DIMENSION /\ 0 <= col < BOARD_DIMENSION /\
        ((get b row col = HUMAN /\ c = PlayerPiece row col BLACK) \/
         (get b row col = AI /\ c = PlayerPiece row col WHITE)))
  /\ NoDup (render_pieces b).
Proof.
  intros _. split.
  - intros c. unfold render_pieces. rewrite in_flat_map. split.
    + intros [row [Hrow Hin]]. apply In_render_row in Hin as [col [Hcol H]].
      exists row, col. apply in_range_In, in_range_true in Hrow.
      apply in_range_true in Hcol. auto.
    + intros [row [col [Hrow [Hcol H]]]]. exists row.
      split; [now apply in_range_In, in_range_true|].
      apply In_render_row. exists col. split; [now apply in_range_true|auto].
  - unfold render_pieces. apply NoDup_flat_map.
    + apply NoDup_range.
    + intros row _. apply NoDup_flat_map.
      * apply NoDup_range.
      * intros col _. destruct (get b row col =? HUMAN);
          [repeat constructor; intros []|].
        destruct (get b row col =? AI); repeat constructor. intros [].
      * intros col col' z _ _ H1 H2.
        assert (Hx : forall k, In z
                  (if get b row k =? HUMAN then [PlayerPiece row k BLACK]
                   else if get b row k =? AI then [PlayerPiece row k WHITE]
                   else []) ->
                  circle_x z = k * CELL_DIMENSION + CELL_DIMENSION / 2).
        { intros k Hk. destruct (get b row k =? HUMAN);
            [destruct Hk as [<-|[]]; reflexivity|].
          destruct (get b row k =? AI); [|destruct Hk].
          destruct Hk as [<-|[]]; reflexivity. }
        pose proof (Hx col H1) as E1. pose proof (Hx col' H2) as E2.
        rewrite CELL_DIMENSION_value in *. lia.
    + intros row row' z _ _ H1 H2.
      apply In_render_row in H1 as [col [_ H1]].
      apply In_render_row in H2 as [col' [_ H2]].
      assert (circle_y z = row * CELL_DIMENSION + CELL_DIMENSION / 2)
        by (destruct H1 as [[_ ->]|[_ ->]]; reflexivity).
      assert (circle_y z = row' * CELL_DIMENSION + CELL_DIMENSION / 2)
        by (destruct H2 as [[_ ->]|[_ ->]]; reflexivity).
      rewrite CELL_DIMENSION_value in *. lia.
Qed.

End Engine.

(** * The theorems at sample positions *)

Lemma insertion_order_perm (s : list move) : Permutation (insertion_order s) s.
Proof. apply Permutation_refl. Qed.

Ltac concrete_wf := split; [reflexivity | repeat constructor].

Lemma opened_board_wf : wf_board opened_board.
Proof. concrete_wf. Qed.

Lemma six_in_a_row_wf : wf_board six_in_a_row.
Proof. concrete_wf. Qed.

Lemma engine_four_wf : wf_board engine_four.
Proof. concrete_wf. Qed.

Lemma human_four_wf : wf_board human_four.
Proof. concrete_wf. Qed.

Lemma drawn_board_wf : wf_board drawn_board.
Proof. concrete_wf. Qed.

Lemma Initialize_Board_wf : wf_board Initialize_Board.
Proof. concrete_wf. Qed.

(** C1, as stated, fails on the empty board at depth 1: no side has won,
    there is no candidate, and the maximizing search answers minus infinity,
    not the evaluation (which is 0). *)
Lemma MiniMax_no_candidates_not_evaluate :
  wf_board Initialize_Board /\
  WinnerCheck Initialize_Board HUMAN = false /\
  WinnerCheck Initialize_Board AI = false /\
  ValidMoveFinder insertion_order Initialize_Board 2 = [] /\
  MiniMax insertion_order 1 Initialize_Board NegInf PosInf true
    = (Initialize_Board, None, NegInf) /\
  MiniMax insertion_order 1 Initialize_Board NegInf PosInf true
    <> (Initialize_Board, None, Fin (Board_Evaluate Initialize_Board AI)).
Proof.
  split; [apply Initialize_Board_wf|].
  repeat split; try (vm_compute; reflexivity).
  vm_compute. discriminate.
Qed.

(** The same on a drawn game, a full board, with the human to move: plus
    infinity. *)
Example MiniMax_drawn_board :
  WinnerCheck drawn_board HUMAN = false /\
  WinnerCheck drawn_board AI = false /\
  ValidMoveFinder insertion_order drawn_board 2 = [] /\
  snd (MiniMax insertion_order 2 drawn_board NegInf PosInf false) = PosInf /\
  Board_Evaluate drawn_board AI = 0.
Proof. repeat split; vm_compute; reflexivity. Qed.

Lemma MiniMax_no_candidates_witness :
  MiniMax insertion_order 2 drawn_board (Fin (-3)) (Fin 7) false =
  (drawn_board, None, PosInf).
Proof.
  apply (MiniMax_no_candidates insertion_order 2 drawn_board
           (Fin (-3)) (Fin 7) false).
  - apply drawn_board_wf.
  - vm_compute; reflexivity.
  - vm_compute; reflexivity.
  - lia.
  - vm_compute; reflexivity.
Defined.

Lemma six_in_a_row_leftwards : has_run six_in_a_row AI.
Proof.
  exists 0, 5, 0, (-1), 6%nat.
  split; [unfold axis_steps; simpl; tauto|]. split; [lia|].
  intros i Hi.
  do 6 (destruct i as [|i]; [vm_compute; repeat split; reflexivity|]). lia.
Qed.

Lemma five_in_a_column_upwards : has_run five_in_a_column AI.
Proof.
  exists 6, 3, (-1), 0, 5%nat.
  split; [unfold axis_steps; simpl; tauto|]. split; [lia|].
  intros i Hi.
  do 5 (destruct i as [|i]; [vm_compute; repeat split; reflexivity|]). lia.
Qed.

Lemma five_on_the_diagonal_upwards : has_run five_on_the_diagonal HUMAN.
Proof.
  exists 5, 5, (-1), (-1), 5%nat.
  split; [unfold axis_steps; simpl; tauto|]. split; [lia|].
  intros i Hi.
  do 5 (destruct i as [|i]; [vm_compute; repeat split; reflexivity|]). lia.
Qed.

Lemma five_on_the_other_diagonal_upwards :
  has_run five_on_the_other_diagonal HUMAN.
Proof.
  exists 5, 4, (-1), 1, 5%nat.
  split; [unfold axis_steps; simpl; tauto|]. split; [lia|].
  intros i Hi.
  do 5 (destruct i as [|i]; [vm_compute; repeat split; reflexivity|]). lia.
Qed.

(** A run on each of the four lines, walked against the scan, is found; and
    four in a row is no run. *)
Lemma WinnerCheck_iff_has_run_witness :
  WinnerCheck six_in_a_row AI = true /\
  WinnerCheck five_in_a_column AI = true /\
  WinnerCheck five_on_the_diagonal HUMAN = true /\
  WinnerCheck five_on_the_other_diagonal HUMAN = true /\
  ~ has_run engine_four AI.
Proof.
  split; [|split; [|split; [|split]]].
  - apply (WinnerCheck_iff_has_run six_in_a_row AI).
    + split; [reflexivity | repeat constructor].
    + apply six_in_a_row_leftwards.
  - apply (WinnerCheck_iff_has_run five_in_a_column AI).
    + split; [reflexivity | repeat constructor].
    + apply five_in_a_column_upwards.
  - apply (WinnerCheck_iff_has_run five_on_the_diagonal HUMAN).
    + split; [reflexivity | repeat constructor].
    + apply five_on_the_diagonal_upwards.
  - apply (WinnerCheck_iff_has_run five_on_the_other_diagonal HUMAN).
    + split; [reflexivity | repeat constructor].
    + apply five_on_the_other_diagonal_upwards.
  - intros H.
    apply (WinnerCheck_iff_has_run engine_four AI) in H.
    + vm_compute in H. discriminate H.
    + split; [reflexivity | repeat constructor].
Defined.

Lemma alpha_beta_same_move_witness :
  wf_board opened_board /\
  snd (fst (MiniMax insertion_order 2 opened_board NegInf PosInf true)) =
    fst (Exhaustive insertion_order 2 opened_board true)
  /\ snd (MiniMax insertion_order 2 opened_board NegInf PosInf true) =
    snd (Exhaustive insertion_order 2 opened_board true).
Proof.
  split; [apply opened_board_wf|].
  apply (alpha_beta_same_move insertion_order insertion_order_perm
           opened_board 2 true).
  apply opened_board_wf.
Defined.

Lemma MiniMax_restores_board_witness :
  wf_board engine_four /\
  fst (fst (MiniMax insertion_order 2 engine_four (Fin 0) PosInf false))
  = engine_four.
Proof.
  split; [apply engine_four_wf|].
  apply (MiniMax_restores_board insertion_order insertion_order_perm
           engine_four 2 (Fin 0) PosInf false).
  apply engine_four_wf.
Defined.

(** With four in a row [AI_move] returns a winning cell; with a human four
    and no win of its own it blocks; on the opened board the depth-2 search
    decides. *)
Lemma AI_move_priority_witness :
  (exists m,
      In m (ValidMoveFinder insertion_order engine_four 2) /\
      WinnerCheck (MakeMove engine_four (fst m) (snd m) AI) AI = true /\
      AI_move insertion_order engine_four = (engine_four, Some m) /\
      forall search,
        AI_move_with insertion_order search engine_four
        = (engine_four, Some m))
  /\ (exists m,
         In m (ValidMoveFinder insertion_order human_four 2) /\
         WinnerCheck (MakeMove human_four (fst m) (snd m) HUMAN) HUMAN = true /\
         AI_move insertion_order human_four = (human_four, Some m) /\
         forall search,
           AI_move_with insertion_order search human_four
           = (human_four, Some m))
  /\ AI_move insertion_order opened_board
     = (opened_board,
        snd (fst (MiniMax insertion_order 2 opened_board NegInf PosInf true))).
Proof.
  assert (none : forall b p,
             forallb (fun m : move =>
                        negb (WinnerCheck (MakeMove b (fst m) (snd m) p) p))
                     (ValidMoveFinder insertion_order b 2) = true ->
             forall m, In m (ValidMoveFinder insertion_order b 2) ->
                       WinnerCheck (MakeMove b (fst m) (snd m) p) p = false).
  { intros b p H m Hm. rewrite forallb_forall in H.
    apply negb_true_iff, H, Hm. }
  split; [|split].
  - apply (proj1 (AI_move_priority insertion_order insertion_order_perm
                    engine_four engine_four_wf)).
    exists (5, 2). split; [vm_compute; tauto | vm_compute; reflexivity].
  - apply (proj1 (proj2 (AI_move_priority insertion_order insertion_order_perm
                           human_four human_four_wf))).
    + apply none. vm_compute; reflexivity.
    + exists (2, 6). split; [vm_compute; tauto | vm_compute; reflexivity].
  - apply (proj2 (proj2 (AI_move_priority insertion_order insertion_order_perm
                           opened_board opened_board_wf))).
    + apply none. vm_compute; reflexivity.
    + apply none. vm_compute; reflexivity.
Defined.

Lemma ValidMoveFinder_spec_witness :
  wf_board opened_board /\
  In (3, 7) (ValidMoveFinder insertion_order opened_board 2) /\
  NoDup (ValidMoveFinder insertion_order opened_board 2) /\
  ValidMoveFinder insertion_order Initialize_Board 2 = [].
Proof.
  split; [apply opened_board_wf|].
  destruct (ValidMoveFinder_spec insertion_order insertion_order_perm
              opened_board opened_board_wf) as [Hin [Hnd _]].
  destruct (ValidMoveFinder_spec insertion_order insertion_order_perm
              Initialize_Board Initialize_Board_wf) as [_ [_ Hnil]].
  split; [|split].
  - apply Hin. unfold BOARD_DIMENSION, near.
    repeat split; try lia; try reflexivity.
    exists 5, 5. repeat split; try lia. vm_compute. discriminate.
  - exact Hnd.
  - apply Hnil. intros r c Hr Hc. unfold BOARD_DIMENSION in *.
    assert (Hrs : In r [0; 1; 2; 3; 4; 5; 6; 7; 8; 9]) by (simpl; lia).
    assert (Hcs : In c [0; 1; 2; 3; 4; 5; 6; 7; 8; 9]) by (simpl; lia).
    simpl in Hrs, Hcs.
    repeat (destruct Hrs as [<-|Hrs]; [|]);
      try contradiction;
      repeat (destruct Hcs as [<-|Hcs]; [|]);
      try contradiction; reflexivity.
Defined.

(** A candidate that wins and one that does not: the board comes back
    either way. *)
Lemma wouldWin_restores_witness :
  wouldWin engine_four 5 7 AI = (engine_four, true) /\
  wouldWin engine_four 6 7 AI = (engine_four, false).
Proof.
  split.
  - replace true with (WinnerCheck (MakeMove engine_four 5 7 AI) AI)
      by (vm_compute; reflexivity).
    apply (wouldWin_restores insertion_order insertion_order_perm
             engine_four 5 7 AI engine_four_wf).
    vm_compute; tauto.
  - replace false with (WinnerCheck (MakeMove engine_four 6 7 AI) AI)
      by (vm_compute; reflexivity).
    apply (wouldWin_restores insertion_order insertion_order_perm
             engine_four 6 7 AI engine_four_wf).
    vm_compute; tauto.
Defined.

(** C8, as stated with the whole forward run length, fails on a run of six:
    the code scores the first stone of the run 25, not 36. *)
Lemma Board_Evaluate_not_whole_runs :
  wf_board six_in_a_row /\
  forward_run six_in_a_row AI 0 0 0 1 = 6 /\
  PatternCount six_in_a_row 0 0 0 1 AI = 5 /\
  Board_Evaluate six_in_a_row AI = 98 /\
  sum_cells_dirs (fun row col dr dc =>
    (forward_run six_in_a_row AI row col dr dc) ^ 2
    - (forward_run six_in_a_row (opponent_of AI) row col dr dc) ^ 2) = 109 /\
  Board_Evaluate six_in_a_row AI <>
  sum_cells_dirs (fun row col dr dc =>
    (forward_run six_in_a_row AI row col dr dc) ^ 2
    - (forward_run six_in_a_row (opponent_of AI) row col dr dc) ^ 2).
Proof.
  split; [apply six_in_a_row_wf|].
  repeat split; try (vm_compute; reflexivity).
  vm_compute. discriminate.
Qed.

Lemma Board_Evaluate_capped_runs_witness :
  wf_board six_in_a_row /\
  Board_Evaluate six_in_a_row AI =
  sum_cells_dirs (fun row col dr dc =>
    (Z.min SEQUENCE_LENGTH (forward_run six_in_a_row AI row col dr dc)) ^ 2
    - (Z.min SEQUENCE_LENGTH
             (forward_run six_in_a_row (opponent_of AI) row col dr dc)) ^ 2).
Proof.
  split; [apply six_in_a_row_wf|].
  apply (Board_Evaluate_capped_runs six_in_a_row AI six_in_a_row_wf).
  right. reflexivity.
Defined.

Lemma Board_Evaluate_antisymmetric_witness :
  wf_board human_four /\
  Board_Evaluate human_four AI = - Board_Evaluate human_four HUMAN.
Proof.
  split; [apply human_four_wf|].
  apply (Board_Evaluate_antisymmetric human_four human_four_wf).
Defined.

Lemma applyHumanMove_rejects_witness :
  applyHumanMove opened_board 5 5 = (opened_board, false) /\
  applyHumanMove opened_board 3 10 = (opened_board, false).
Proof.
  split.
  - apply (applyHumanMove_rejects opened_board 5 5 opened_board_wf).
    right. unfold BOARD_DIMENSION. repeat split; try lia.
    vm_compute. discriminate.
  - apply (applyHumanMove_rejects opened_board 3 10 opened_board_wf).
    left. unfold BOARD_DIMENSION. lia.
Defined.

(** * The further properties at sample positions *)

Lemma cells_by_check (test : Z -> Z -> bool) :
  forallb (fun r => forallb (fun c => test r c) (range 0 BOARD_DIMENSION))
          (range 0 BOARD_DIMENSION) = true ->
  forall r c, 0 <= r < BOARD_DIMENSION -> 0 <= c < BOARD_DIMENSION ->
              test r c = true.
Proof.
  intros H r c Hr Hc. rewrite forallb_forall in H.
  specialize (H r (proj2 (In_range r 0 BOARD_DIMENSION) Hr)).
  rewrite forallb_forall in H.
  exact (H c (proj2 (In_range c 0 BOARD_DIMENSION) Hc)).
Qed.

Lemma candidates_by_check (b : board) (test : move -> bool) :
  forallb test (ValidMoveFinder insertion_order b 2) = true ->
  forall m, In m (ValidMoveFinder insertion_order b 2) -> test m = true.
Proof. intros H. now apply forallb_forall. Qed.

Lemma MakeMove_read_back_witness :
  wf_board (MakeMove opened_board 3 4 HUMAN) /\
  get (MakeMove opened_board 3 4 HUMAN) 3 4 = HUMAN /\
  get (MakeMove opened_board 3 4 HUMAN) 5 5 = get opened_board 5 5.
Proof.
  destruct (MakeMove_read_back opened_board 3 4 HUMAN opened_board_wf)
    as [H1 [H2 H3]]; unfold BOARD_DIMENSION; try lia.
  split; [exact H1|]. split; [exact H2|].
  apply H3; unfold BOARD_DIMENSION; try lia. discriminate.
Defined.

Lemma CheckValidMove_after_move_witness :
  CheckValidMove (MakeMove opened_board 3 4 HUMAN) 3 4 =
  CheckValidMove opened_board 3 4 && negb ((3 =? 3) && (4 =? 4)).
Proof.
  apply (CheckValidMove_after_move opened_board 3 4 HUMAN opened_board_wf).
  - vm_compute; reflexivity.
  - discriminate.
Defined.

Lemma WinnerCheck_persists_witness :
  WinnerCheck (MakeMove six_in_a_row 5 5 HUMAN) AI = true.
Proof.
  apply (WinnerCheck_persists six_in_a_row 5 5 HUMAN AI six_in_a_row_wf).
  - vm_compute; reflexivity.
  - discriminate.
  - vm_compute; reflexivity.
Defined.

Lemma WinnerCheck_unchanged_by_other_witness :
  WinnerCheck (MakeMove engine_four 5 7 AI) HUMAN =
  WinnerCheck engine_four HUMAN.
Proof.
  apply (WinnerCheck_unchanged_by_other engine_four 5 7 AI HUMAN
           engine_four_wf).
  - vm_compute; reflexivity.
  - discriminate.
  - discriminate.
Defined.

Lemma new_win_through_move_witness :
  exists r c dr dc (i : nat),
    In (dr, dc) directions /\
    run_at (MakeMove engine_four 5 7 AI) AI r c dr dc 5 /\
    (i < 5)%nat /\ r + dr * Z.of_nat i = 5 /\ c + dc * Z.of_nat i = 7.
Proof.
  apply (new_win_through_move engine_four 5 7 AI engine_four_wf).
  - vm_compute; reflexivity.
  - vm_compute; reflexivity.
  - vm_compute; reflexivity.
Defined.

Lemma PatternCount_bounds_witness :
  0 <= PatternCount six_in_a_row 0 0 0 1 AI <= SEQUENCE_LENGTH /\
  (PatternCount six_in_a_row 0 0 0 1 AI = 0 <->
   ~ (0 <= 0 < BOARD_DIMENSION /\ 0 <= 0 < BOARD_DIMENSION /\
      get six_in_a_row 0 0 = AI)).
Proof.
  apply (PatternCount_bounds six_in_a_row 0 0 0 1 AI six_in_a_row_wf).
Defined.

Lemma Board_Evaluate_bounded_witness :
  - 10000 <= Board_Evaluate human_four HUMAN <= 10000.
Proof.
  apply (Board_Evaluate_bounded human_four HUMAN human_four_wf).
Defined.

Lemma Board_Evaluate_sign_witness :
  0 <= Board_Evaluate six_in_a_row AI /\
  Board_Evaluate six_in_a_row HUMAN <= 0.
Proof.
  split.
  - apply (proj1 (Board_Evaluate_sign six_in_a_row AI six_in_a_row_wf
                    (or_intror eq_refl))).
    intros row col Hr Hc.
    apply Z.eqb_neq, negb_true_iff.
    apply (cells_by_check
             (fun r c => negb (get six_in_a_row r c =? opponent_of AI)));
      auto.
  - apply (proj2 (Board_Evaluate_sign six_in_a_row HUMAN six_in_a_row_wf
                    (or_introl eq_refl))).
    intros row col Hr Hc.
    apply Z.eqb_neq, negb_true_iff.
    apply (cells_by_check
             (fun r c => negb (get six_in_a_row r c =? HUMAN)));
      auto.
Defined.

Lemma ValidMoveFinder_radius_witness :
  ValidMoveFinder insertion_order opened_board 0 = [] /\
  (In (4, 4) (ValidMoveFinder insertion_order opened_board 1) ->
   In (4, 4) (ValidMoveFinder insertion_order opened_board 2)).
Proof.
  split.
  - apply (proj1 (ValidMoveFinder_radius insertion_order insertion_order_perm
                    opened_board 0 0 opened_board_wf)). lia.
  - apply (proj2 (ValidMoveFinder_radius insertion_order insertion_order_perm
                    opened_board 1 2 opened_board_wf)). lia.
Defined.

Lemma ValidMoveFinder_empty_iff_witness :
  ValidMoveFinder insertion_order drawn_board 2 = [] <->
  (forall r c, 0 <= r < BOARD_DIMENSION -> 0 <= c < BOARD_DIMENSION ->
               get drawn_board r c = 0)
  \/ (forall r c, 0 <= r < BOARD_DIMENSION -> 0 <= c < BOARD_DIMENSION ->
                  get drawn_board r c <> 0).
Proof.
  apply (ValidMoveFinder_empty_iff insertion_order insertion_order_perm
           drawn_board drawn_board_wf).
Defined.

Lemma MiniMax_move_is_candidate_witness :
  In (4, 4) (ValidMoveFinder insertion_order opened_board 2) /\
  CheckValidMove opened_board 4 4 = true.
Proof.
  apply (MiniMax_move_is_candidate insertion_order insertion_order_perm
           2 opened_board NegInf PosInf true 4 4 opened_board_wf).
  vm_compute; reflexivity.
Defined.

Lemma MiniMax_window_sound_witness :
  let v := snd (Exhaustive insertion_order 2 opened_board true) in
  let r := snd (MiniMax insertion_order 2 opened_board (Fin 0) (Fin 5) true) in
  (sle v (Fin 0) -> sle r (Fin 0)) /\
  (slt (Fin 0) v -> slt v (Fin 5) -> r = v) /\
  (sle (Fin 5) v -> sle (Fin 5) r).
Proof.
  apply (MiniMax_window_sound insertion_order insertion_order_perm
           2 opened_board (Fin 0) (Fin 5) true opened_board_wf).
  cbn. lia.
Defined.

Lemma MiniMax_root_dominates_witness :
  sle (snd (MiniMax insertion_order 1 (MakeMove opened_board 4 4 AI)
                    NegInf PosInf false))
      (snd (MiniMax insertion_order 2 opened_board NegInf PosInf true))
  /\ sle (snd (MiniMax insertion_order 2 opened_board NegInf PosInf false))
         (snd (MiniMax insertion_order 1 (MakeMove opened_board 4 4 HUMAN)
                       NegInf PosInf true)).
Proof.
  apply (MiniMax_root_dominates insertion_order insertion_order_perm
           1 opened_board 4 4 opened_board_wf).
  - vm_compute; reflexivity.
  - vm_compute; reflexivity.
  - vm_compute. tauto.
Defined.

Lemma CriticalMoveFinder_spec_witness :
  fst (CriticalMoveFinder insertion_order engine_four AI) = engine_four /\
  match snd (CriticalMoveFinder insertion_order engine_four AI) with
  | Some m =>
      In m (ValidMoveFinder insertion_order engine_four 2) /\
      WinnerCheck (MakeMove engine_four (fst m) (snd m) AI) AI = true
  | None =>
      forall m, In m (ValidMoveFinder insertion_order engine_four 2) ->
                WinnerCheck (MakeMove engine_four (fst m) (snd m) AI) AI
                = false
  end.
Proof.
  apply (CriticalMoveFinder_spec insertion_order insertion_order_perm
           engine_four AI engine_four_wf).
Defined.

Lemma AI_move_valid_witness :
  engine_four = engine_four /\
  In (5, 2) (ValidMoveFinder insertion_order engine_four 2) /\
  CheckValidMove engine_four 5 2 = true.
Proof.
  apply (AI_move_valid insertion_order insertion_order_perm
           engine_four engine_four 5 2 engine_four_wf).
  vm_compute; reflexivity.
Defined.

Lemma AI_move_none_iff_witness :
  snd (AI_move insertion_order drawn_board) = None <->
  ValidMoveFinder insertion_order drawn_board 2 = [].
Proof.
  apply (AI_move_none_iff insertion_order insertion_order_perm
           drawn_board drawn_board_wf).
Defined.

Lemma AI_move_after_win_witness :
  exists m,
    In m (ValidMoveFinder insertion_order six_in_a_row 2) /\
    AI_move insertion_order six_in_a_row = (six_in_a_row, Some m) /\
    forall search,
      AI_move_with insertion_order search six_in_a_row
      = (six_in_a_row, Some m).
Proof.
  apply (AI_move_after_win insertion_order insertion_order_perm
           six_in_a_row six_in_a_row_wf).
  - right. vm_compute; reflexivity.
  - vm_compute. discriminate.
Defined.

Lemma cell_of_pixel_in_bounds_witness :
  200 < WINDOW_DIMENSION /\ 100 < WINDOW_DIMENSION <->
  0 <= fst (cell_of_pixel 200 100) < BOARD_DIMENSION /\
  0 <= snd (cell_of_pixel 200 100) < BOARD_DIMENSION.
Proof. apply (cell_of_pixel_in_bounds 200 100); lia. Defined.

Lemma PlayerPiece_inside_cell_witness : cell_of_pixel 200 100 = (1, 3).
Proof.
  apply (PlayerPiece_inside_cell 1 3 BLACK 200 100); vm_compute; discriminate.
Defined.

Lemma one_human_move_per_frame_witness :
  exists g',
    handle_events new_game two_clicks = Some g' /\
    (g' = new_game \/
     (game_over new_game = false /\ turn new_game = HUMAN /\
      exists row col,
        CheckValidMove (game_board new_game) row col = true /\
        g' = {| game_board := MakeMove (game_board new_game) row col HUMAN;
                game_over :=
                  WinnerCheck (MakeMove (game_board new_game) row col HUMAN)
                              HUMAN;
                turn := AI |})).
Proof.
  eexists. split; [vm_compute; reflexivity|].
  apply (one_human_move_per_frame new_game _ two_clicks).
  vm_compute; reflexivity.
Defined.

Lemma game_over_is_final_witness :
  frame insertion_order won_game two_clicks = Some won_game.
Proof.
  apply (game_over_is_final insertion_order won_game two_clicks).
  - reflexivity.
  - intros [H|[H|[H|[]]]]; discriminate.
Defined.

Lemma frame_keeps_stones_witness :
  exists g',
    frame insertion_order new_game two_clicks = Some g' /\
    wf_board (game_board g') /\
    forall r c,
      0 <= r < BOARD_DIMENSION -> 0 <= c < BOARD_DIMENSION ->
      get (game_board new_game) r c <> 0 ->
      get (game_board g') r c = get (game_board new_game) r c.
Proof.
  eexists. split; [vm_compute; reflexivity|].
  apply (frame_keeps_stones insertion_order insertion_order_perm
           new_game _ two_clicks).
  - apply opened_board_wf.
  - vm_compute; reflexivity.
Defined.

Lemma ai_turn_takes_win_witness :
  WinnerCheck (game_board (ai_turn insertion_order
                                   (engine_to_move engine_four))) AI = true /\
  game_over (ai_turn insertion_order (engine_to_move engine_four)) = true /\
  turn (ai_turn insertion_order (engine_to_move engine_four)) = HUMAN.
Proof.
  apply (ai_turn_takes_win insertion_order insertion_order_perm
           (engine_to_move engine_four)).
  - apply engine_four_wf.
  - reflexivity.
  - reflexivity.
  - exists (5, 2). split; [vm_compute; tauto | vm_compute; reflexivity].
Defined.

Lemma ai_turn_blocks_witness :
  exists row col,
    In (row, col) (ValidMoveFinder insertion_order human_four 2) /\
    WinnerCheck (MakeMove human_four row col HUMAN) HUMAN = true /\
    game_board (ai_turn insertion_order (engine_to_move human_four))
    = MakeMove human_four row col AI /\
    turn (ai_turn insertion_order (engine_to_move human_four)) = HUMAN.
Proof.
  apply (ai_turn_blocks insertion_order insertion_order_perm
           (engine_to_move human_four)).
  - apply human_four_wf.
  - reflexivity.
  - reflexivity.
  - intros m Hm. apply negb_true_iff.
    apply (candidates_by_check human_four
             (fun m => negb (WinnerCheck
                               (MakeMove human_four (fst m) (snd m) AI) AI)));
      [vm_compute; reflexivity | exact Hm].
  - exists (2, 6). split; [vm_compute; tauto | vm_compute; reflexivity].
Defined.

Lemma one_frame_reachable :
  exists g',
    frame insertion_order new_game two_clicks = Some g' /\
    reachable insertion_order g'.
Proof.
  eexists. split; [vm_compute; reflexivity|].
  apply (reachable_frame insertion_order new_game two_clicks).
  - apply reachable_new.
  - vm_compute; reflexivity.
Qed.

Lemma reachable_well_formed_witness :
  exists g',
    frame insertion_order new_game two_clicks = Some g' /\
    wf_board (game_board g') /\
    (forall r c, 0 <= r < BOARD_DIMENSION -> 0 <= c < BOARD_DIMENSION ->
                 get (game_board g') r c = 0 \/
                 get (game_board g') r c = HUMAN \/
                 get (game_board g') r c = AI) /\
    get (game_board g') (BOARD_DIMENSION / 2) (BOARD_DIMENSION / 2) = AI /\
    (turn g' = HUMAN \/ turn g' = AI).
Proof.
  destruct one_frame_reachable as [g' [Hf Hr]].
  exists g'. split; [exact Hf|].
  apply (reachable_well_formed insertion_order insertion_order_perm g' Hr).
Defined.

Lemma reachable_game_over_iff_win_witness :
  exists g',
    frame insertion_order new_game two_clicks = Some g' /\
    (game_over g' = true <->
     WinnerCheck (game_board g') HUMAN = true \/
     WinnerCheck (game_board g') AI = true) /\
    ~ (WinnerCheck (game_board g') HUMAN = true /\
       WinnerCheck (game_board g') AI = true) /\
    (WinnerCheck (game_board g') HUMAN = true -> turn g' = AI) /\
    (WinnerCheck (game_board g') AI = true -> turn g' = HUMAN).
Proof.
  destruct one_frame_reachable as [g' [Hf Hr]].
  exists g'. split; [exact Hf|].
  apply (reachable_game_over_iff_win insertion_order insertion_order_perm
           g' Hr).
Defined.

Lemma reachable_waits_for_human_witness :
  exists g',
    frame insertion_order new_game two_clicks = Some g' /\
    (turn g' = HUMAN \/
     (forall r c, 0 <= r < BOARD_DIMENSION -> 0 <= c < BOARD_DIMENSION ->
                  get (game_board g') r c <> 0)).
Proof.
  destruct one_frame_reachable as [g' [Hf Hr]].
  exists g'. split; [exact Hf|].
  apply (reachable_waits_for_human insertion_order insertion_order_perm
           g' Hr).
  vm_compute in Hf. injection Hf as <-. reflexivity.
Defined.

Lemma render_pieces_spec_witness :
  (forall c,
      In c (render_pieces human_four) <->
      exists row col,
        0 <= row < BOARD_DIMENSION /\ 0 <= col < BOARD_DIMENSION /\
        ((get human_four row col = HUMAN /\ c = PlayerPiece row col BLACK) \/
         (get human_four row col = AI /\ c = PlayerPiece row col WHITE)))
  /\ NoDup (render_pieces human_four).
Proof. apply (render_pieces_spec human_four human_four_wf). Defined.
